(** * Patch ordering and commit merging of dolt, embedded in Rocq

    The development follows two source files:

    - the [diff] package's patch order ([PatchSort], [pathIsLess],
      [pathPartCompare] and the three per-variant comparison functions);
    - the [actions] package's [MergeCommits].

    Go values are embedded shallowly: [int] as [Z], [string] as
    [String.string], byte slices as [list byte], slices as lists read with
    stdpp's lookup, [map[string]*MergeStats] as a [gmap].  A call that can
    panic returns a [go] result; a call that returns a Go [error] returns a
    [result]. *)

From Stdlib Require Import ZArith Lia Bool Ascii String.
From Stdlib Require Import Strings.Byte.
From stdpp Require Import base option list sorting gmap strings.

Local Open Scope Z_scope.

(** ** Go control outcomes *)

(** A Go call either returns a value or panics with a message. *)
Inductive go (A : Type) : Type :=
| Ret (a : A)
| Panic (msg : string).
Arguments Ret {A} a.
Arguments Panic {A} msg.

(** ** Standard-library comparisons used by the source *)

(** [bytes.Compare]: lexicographic comparison of two byte slices, with the
    bytes read as unsigned numbers; the result is -1, 0 or +1. *)
Fixpoint bytes_Compare (a b : list byte) : Z :=
  match a, b with
  | [], [] => 0
  | [], _ :: _ => -1
  | _ :: _, [] => 1
  | x :: a', y :: b' =>
      match N.compare (Byte.to_N x) (Byte.to_N y) with
      | Lt => -1
      | Gt => 1
      | Eq => bytes_Compare a' b'
      end
  end.

(** Go's [==] and [<] on strings: byte-wise equality and byte-wise
    lexicographic order. *)
Definition string_eq (s t : string) : bool := String.eqb s t.
Definition string_lt (s t : string) : bool := String.ltb s t.

(** ** Three-way comparisons *)

(** The three-way reading of Go's [==] and [<] on strings, as
    [fieldPathCompare] combines them. *)
Definition string_compare (s t : string) : Z :=
  if string_eq s t then 0 else if string_lt s t then -1 else 1.

(** The tie-break on [IntoKey]: equal flags tie, and a part that goes into
    the key comes first. *)
Definition IntoKey_compare (k1 k2 : bool) : Z :=
  if Bool.eqb k1 k2 then 0 else if k1 then -1 else 1.

(** A first comparison, and a second one where the first ties. *)
Definition lex (c1 c2 : Z) : Z := if c1 =? 0 then c2 else c1.

(** What makes a function to -1, 0, 1 the comparison of a strict weak
    order: it is antisymmetric, and two steps that do not go up compose to
    the lower of the two. *)
Record three_way {A : Type} (c : A -> A -> Z) : Prop := mk_three_way {
  tw_range : forall x y, c x y = -1 \/ c x y = 0 \/ c x y = 1;
  tw_antisym : forall x y, c y x = - c x y;
  tw_compose : forall x y z,
    c x y <= 0 -> c y z <= 0 -> c x z = Z.min (c x y) (c y z)
}.

(** ** The path model *)

Section PathModel.

(** [types.Format] and [types.Value] belong to the value store.  The patch
    order reaches them only through [Value.Equals] and [Value.Less]. *)
Variable Format : Type.
Variable Value : Type.
Variable Value_Equals : Format -> Value -> Value -> bool.
Variable Value_Less : Format -> Value -> Value -> bool.

Record FieldPath : Type := mkFieldPath { Name : string }.

Record IndexPath : Type := mkIndexPath { Index : Value; IntoKey : bool }.

Record HashIndexPath : Type :=
  mkHashIndexPath { Hash : list byte; HIntoKey : bool }.

(** [types.PathPart] is an interface.  Its dynamic type is one of the three
    structs above, or there is none (the nil interface), which is the value
    no type switch of this file has a case for. *)
Inductive PathPart : Type :=
| PField (pp : FieldPath)
| PIndex (pp : IndexPath)
| PHashIndex (pp : HashIndexPath)
| PNil.

(** [types.Path], a slice of parts from the root down. *)
Local Abbreviation Path := (list PathPart).

(** The variants the type switches know. *)
Definition is_variant (pp : PathPart) : bool :=
  match pp with
  | PField _ | PIndex _ | PHashIndex _ => true
  | PNil => false
  end.

Definition fieldPathCompare (pp : FieldPath) (o : PathPart) : go Z :=
  match o with
  | PField opp =>
      if string_eq (Name pp) (Name opp) then Ret 0
      else if string_lt (Name pp) (Name opp) then Ret (-1)
      else Ret 1
  | PIndex _ => Ret (-1)
  | PHashIndex _ => Ret (-1)
  | PNil => Panic "unreachable"
  end.

Definition indexPathCompare (format : Format) (pp : IndexPath) (o : PathPart)
  : go Z :=
  match o with
  | PField _ => Ret 1
  | PIndex opp =>
      if Value_Equals format (Index pp) (Index opp) then
        if Bool.eqb (IntoKey pp) (IntoKey opp) then Ret 0
        else if IntoKey pp then Ret (-1)
        else Ret 1
      else if Value_Less format (Index pp) (Index opp) then Ret (-1)
      else Ret 1
  | PHashIndex _ => Ret (-1)
  | PNil => Panic "unreachable"
  end.

Definition hashIndexPathCompare (pp : HashIndexPath) (o : PathPart) : go Z :=
  match o with
  | PField _ => Ret 1
  | PIndex _ => Ret 1
  | PHashIndex opp =>
      let c := bytes_Compare (Hash pp) (Hash opp) in
      if c =? -1 then Ret (-1)
      else if c =? 0 then
        if Bool.eqb (HIntoKey pp) (HIntoKey opp) then Ret 0
        else if HIntoKey pp then Ret (-1)
        else Ret 1
      else if c =? 1 then Ret 1
      else Panic "unreachable"
  | PNil => Panic "unreachable"
  end.

Definition pathPartCompare (format : Format) (pp pp2 : PathPart) : go Z :=
  match pp with
  | PField pp1 => fieldPathCompare pp1 pp2
  | PIndex pp1 => indexPathCompare format pp1 pp2
  | PHashIndex pp1 => hashIndexPathCompare pp1 pp2
  | PNil => Panic "unreachable"
  end.

(** The [range] loop of [pathIsLess]: [i] is the loop index and [rest] the
    elements of [p1] from [i] on. *)
Fixpoint pathIsLess_loop (format : Format) (p1 p2 : Path) (i : nat)
  (rest : Path) : go bool :=
  match rest with
  | [] => Ret (length p1 <? length p2)%nat
  | pp1 :: rest' =>
      if (length p2 =? i)%nat then Ret false
      else
        match p2 !! i with
        | None => Panic "index out of range"
        | Some pp2 =>
            match pathPartCompare format pp1 pp2 with
            | Panic msg => Panic msg
            | Ret c =>
                if c =? -1 then Ret true
                else if c =? 1 then Ret false
                else pathIsLess_loop format p1 p2 (S i) rest'
            end
        end
  end.

Definition pathIsLess (format : Format) (p1 p2 : Path) : go bool :=
  pathIsLess_loop format p1 p2 0 p1.

(** The three-way reading of [Value.Equals] and [Value.Less], as
    [indexPathCompare] combines them. *)
Definition Value_compare (format : Format) (x y : Value) : Z :=
  if Value_Equals format x y then 0
  else if Value_Less format x y then -1
  else 1.

(** [pathIsLess] by recursion on the two paths. *)
Fixpoint path_lex (format : Format) (p1 p2 : Path) : go bool :=
  match p1, p2 with
  | [], [] => Ret false
  | [], _ :: _ => Ret true
  | _ :: _, [] => Ret false
  | pp1 :: p1', pp2 :: p2' =>
      match pathPartCompare format pp1 pp2 with
      | Panic msg => Panic msg
      | Ret c =>
          if c =? -1 then Ret true
          else if c =? 1 then Ret false
          else path_lex format p1' p2'
      end
  end.

End PathModel.

Abbreviation Path Value := (list (PathPart Value)).

Arguments mkIndexPath {Value} Index IntoKey.
Arguments Index {Value} i.
Arguments IntoKey {Value} i.
Arguments PField {Value} pp.
Arguments PIndex {Value} pp.
Arguments PHashIndex {Value} pp.
Arguments PNil {Value}.
Arguments is_variant {Value} pp.
Arguments fieldPathCompare {Value} pp o.
Arguments indexPathCompare {Format Value} Value_Equals Value_Less format pp o.
Arguments hashIndexPathCompare {Value} pp o.
Arguments pathPartCompare {Format Value} Value_Equals Value_Less format pp pp2.
Arguments pathIsLess_loop {Format Value} Value_Equals Value_Less
  format p1 p2 i rest.
Arguments pathIsLess {Format Value} Value_Equals Value_Less format p1 p2.
Arguments Value_compare {Format Value} Value_Equals Value_Less format x y.
Arguments path_lex {Format Value} Value_Equals Value_Less format p1 p2.

(** ** Differences and the patch order *)

(** Modelled from the spec: the declaration of [types.DiffChangeType], whose
    three values the data model lists as Added, Modified and Removed. *)
Inductive DiffChangeType : Type :=
| DiffChangeAdded
| DiffChangeRemoved
| DiffChangeModified.

#[global] Instance DiffChangeType_eq_dec : EqDecision DiffChangeType.
Proof. solve_decision. Defined.

#[global] Instance DiffChangeType_countable : Countable DiffChangeType.
Proof.
  refine (inj_countable'
    (fun c => match c with
              | DiffChangeAdded => 0%nat
              | DiffChangeRemoved => 1%nat
              | DiffChangeModified => 2%nat
              end)
    (fun n => match n with
              | 0%nat => DiffChangeAdded
              | 1%nat => DiffChangeRemoved
              | _ => DiffChangeModified
              end) _).
  intros c. destruct c; reflexivity.
Defined.

(** The package-level map [vals]. *)
Definition vals : gmap DiffChangeType Z :=
  {[ DiffChangeRemoved := 0; DiffChangeModified := 1; DiffChangeAdded := 2 ]}.

(** Reading a Go map: a key that is absent reads as the zero value. *)
Definition vals_at (c : DiffChangeType) : Z := default 0 (vals !! c).

(** [sort.Interface], the three methods Go's [sort] package drives a
    collection through.  Indices are [nat]: a position outside the slice
    makes the method panic. *)
Class sort_Interface (A : Type) : Type := {
  Len : A -> nat;
  Less : A -> nat -> nat -> go bool;
  Swap : A -> nat -> nat -> go A
}.

(** Sequencing of calls that may panic. *)
Definition go_bind {A B : Type} (m : go A) (k : A -> go B) : go B :=
  match m with
  | Ret a => k a
  | Panic msg => Panic msg
  end.

(** [insertionSort] of Go's [sort] package: the inner loop moves the element
    at [j] down by adjacent swaps while it is less than its predecessor. *)
Fixpoint insertionSort_inner {A : Type} `{sort_Interface A}
  (data : A) (a j : nat) : go A :=
  match j with
  | O => Ret data
  | S j' =>
      if (a <? j)%nat then
        go_bind (Less data j j') (fun lt =>
          if (lt : bool) then
            go_bind (Swap data j j') (fun data' =>
              insertionSort_inner data' a j')
          else Ret data)
      else Ret data
  end.

(** The outer loop of [insertionSort], with [n] iterations left from [i]. *)
Fixpoint insertionSort_outer {A : Type} `{sort_Interface A}
  (n : nat) (data : A) (a i : nat) : go A :=
  match n with
  | O => Ret data
  | S n' =>
      go_bind (insertionSort_inner data a i) (fun data' =>
        insertionSort_outer n' data' a (S i))
  end.

Definition insertionSort {A : Type} `{sort_Interface A}
  (data : A) (a b : nat) : go A :=
  insertionSort_outer (b - (a + 1)) data a (a + 1).

(** [sort.Sort] on at most six elements: below that length every version of
    the package runs [insertionSort] over the whole range and nothing
    else. *)
Definition sort_Sort_small {A : Type} `{sort_Interface A} (data : A) : go A :=
  insertionSort data 0 (Len data).

Section PatchOrder.

Variable Format : Type.
Variable Value : Type.
Variable Value_Equals : Format -> Value -> Value -> bool.
Variable Value_Less : Format -> Value -> Value -> bool.

(** [types.Path.Equals], the exact equality of two paths. *)
Variable Path_Equals : Path Value -> Path Value -> bool.

(** Modelled from the spec: the declaration of [Difference], a path, a
    change type and the old and new values, either of which may be absent. *)
Record Difference : Type := mkDifference {
  DPath : Path Value;
  ChangeType : DiffChangeType;
  OldValue : option Value;
  NewValue : option Value
}.

(** [Patch], a slice of differences. *)
Local Abbreviation Patch := (list Difference).

Record PatchSort : Type := mkPatchSort {
  patch : Patch;
  format : Format
}.

Definition PatchSort_Swap (ps : PatchSort) (i j : nat) : go PatchSort :=
  match patch ps !! i, patch ps !! j with
  | Some di, Some dj =>
      Ret (mkPatchSort (<[j := di]> (<[i := dj]> (patch ps))) (format ps))
  | _, _ => Panic "index out of range"
  end.

Definition PatchSort_Len (ps : PatchSort) : nat := length (patch ps).

(** The body of [Less] on the two elements it reads. *)
Definition Difference_Less (fmt : Format) (di dj : Difference) : go bool :=
  if Path_Equals (DPath di) (DPath dj) then
    Ret (vals_at (ChangeType di) <? vals_at (ChangeType dj))
  else pathIsLess Value_Equals Value_Less fmt (DPath di) (DPath dj).

Definition PatchSort_Less (ps : PatchSort) (i j : nat) : go bool :=
  match patch ps !! i, patch ps !! j with
  | Some di, Some dj => Difference_Less (format ps) di dj
  | _, _ => Panic "index out of range"
  end.

(** The index expression [ps.patch[i]] with [i] an [int]: an index below 0
    panics as one at or past the length does. *)
Definition Patch_index (p : Patch) (i : Z) : go Difference :=
  if i <? 0 then Panic "index out of range"
  else
    match p !! Z.to_nat i with
    | Some d => Ret d
    | None => Panic "index out of range"
    end.

(** [Swap] and [Less] as they are declared, on two [int].  [Swap] reads
    the right-hand side of its assignment, [ps.patch[j]] then
    [ps.patch[i]], before it writes either element; [Less] reads
    [ps.patch[i]] then [ps.patch[j]].  [PatchSort_Swap] and [PatchSort_Less]
    above are these two at the positions [0 <= i], which are the ones the
    sort passes. *)
Definition PatchSort_Swap_int (ps : PatchSort) (i j : Z) : go PatchSort :=
  go_bind (Patch_index (patch ps) j) (fun dj =>
  go_bind (Patch_index (patch ps) i) (fun di =>
    Ret (mkPatchSort
           (<[Z.to_nat j := di]> (<[Z.to_nat i := dj]> (patch ps)))
           (format ps)))).

Definition PatchSort_Less_int (ps : PatchSort) (i j : Z) : go bool :=
  go_bind (Patch_index (patch ps) i) (fun di =>
  go_bind (Patch_index (patch ps) j) (fun dj =>
    Difference_Less (format ps) di dj)).

#[export] Instance PatchSort_sort_Interface : sort_Interface PatchSort := {
  Len := PatchSort_Len;
  Less := PatchSort_Less;
  Swap := PatchSort_Swap
}.

(** A patch is in order when no later element is less than an earlier
    one. *)
Fixpoint patch_in_order (fmt : Format) (p : Patch) : bool :=
  match p with
  | [] => true
  | d :: p' =>
      forallb (fun d' =>
        match Difference_Less fmt d' d with
        | Ret false => true
        | _ => false
        end) p'
      && patch_in_order fmt p'
  end.

End PatchOrder.

Abbreviation Patch Value := (list (Difference Value)).

Arguments mkDifference {Value} DPath ChangeType OldValue NewValue.
Arguments DPath {Value} d.
Arguments ChangeType {Value} d.
Arguments OldValue {Value} d.
Arguments NewValue {Value} d.
Arguments mkPatchSort {Format Value} patch format.
Arguments patch {Format Value} p.
Arguments format {Format Value} p.
Arguments PatchSort_Swap {Format Value} ps i j.
Arguments PatchSort_Len {Format Value} ps.
Arguments Difference_Less {Format Value} Value_Equals Value_Less Path_Equals
  fmt di dj.
Arguments PatchSort_Less {Format Value} Value_Equals Value_Less Path_Equals
  ps i j.
Arguments patch_in_order {Format Value} Value_Equals Value_Less Path_Equals
  fmt p.
Arguments Patch_index {Value} p i.
Arguments PatchSort_Swap_int {Format Value} ps i j.
Arguments PatchSort_Less_int {Format Value} Value_Equals Value_Less
  Path_Equals ps i j.

(** ** Merging two commits *)

(** A Go call that returns a value together with an [error]. *)
Inductive result (E A : Type) : Type :=
| Ok (a : A)
| Err (e : E).
Arguments Ok {E A} a.
Arguments Err {E A} e.

(** Modelled from the spec: the declaration of [merge.TableMergeOp], the
    [Operation] tag of the statistics. *)
Inductive TableMergeOp : Type :=
| TableUnmodified
| TableModified
| TableRemoved
| TableAdded.

(** Modelled from the spec: the declaration of [merge.MergeStats], the
    operation tag, the counts of added, removed and modified rows and the
    count of conflicts.  [TableUnmodified] and 0 are the zero values. *)
Record MergeStats : Type := mkMergeStats {
  Operation : TableMergeOp;
  Adds : Z;
  Deletes : Z;
  Modifications : Z;
  Conflicts : Z
}.

(** The composite literal [&merge.MergeStats{Operation: op}]. *)
Definition MergeStats_of_Operation (op : TableMergeOp) : MergeStats :=
  mkMergeStats op 0 0 0 0.

(** How control leaves a statement of a function that returns an [R]: it
    goes on with a value, returns from the function, or panics. *)
Inductive Outcome (R A : Type) : Type :=
| Continue (a : A)
| Return (r : R)
| Panicked (msg : string).
Arguments Continue {R A} a.
Arguments Return {R A} r.
Arguments Panicked {R A} msg.

Section MergeModel.

(** The collaborators of [MergeCommits]: the commit graph, the roots and
    the table merger. *)
Variable Context : Type.
Variable DoltDB : Type.
Variable Commit : Type.
Variable ValueReadWriter : Type.
Variable Merger : Type.
Variable RootValue : Type.
Variable Table : Type.
Variable Error : Type.

Variable DoltDB_ValueReadWriter : DoltDB -> ValueReadWriter.
Variable NewMerger :
  Context -> Commit -> Commit -> ValueReadWriter -> result Error Merger.
Variable GetRootValue : Commit -> result Error RootValue.
Variable UnionTableNames :
  Context -> RootValue -> RootValue -> result Error (list string).
Variable MergeTable :
  Merger -> Context -> string ->
  result Error (option Table * option MergeStats).
Variable PutTable :
  RootValue -> Context -> string -> Table -> result Error RootValue.
Variable HasTable : RootValue -> Context -> string -> result Error bool.
Variable RemoveTables :
  RootValue -> Context -> string -> result Error RootValue.

(** The calls [MergeCommits] makes on its collaborators. *)
Inductive Call : Type :=
| CallNewMerger
| CallGetRootValue (cm : Commit)
| CallUnionTableNames
| CallMergeTable (tblName : string)
| CallPutTable (tblName : string)
| CallHasTable (tblName : string)
| CallRemoveTables (tblName : string).

(** The three values [MergeCommits] returns; [None] is Go's [nil]. *)
Record MergeResult : Type := mkMergeResult {
  res_root : option RootValue;
  res_stats : option (gmap string (option MergeStats));
  res_err : option Error
}.

(** A statement of [MergeCommits]: the calls it makes, in order, and how
    control leaves it. *)
Definition Proc (A : Type) : Type := list Call * Outcome MergeResult A.

Definition proc_ret {A : Type} (a : A) : Proc A := ([], Continue a).

Definition proc_bind {A B : Type} (m : Proc A) (k : A -> Proc B) : Proc B :=
  match m with
  | (t, Continue a) => let '(t', o) := k a in (t ++ t', o)
  | (t, Return r) => (t, Return r)
  | (t, Panicked msg) => (t, Panicked msg)
  end.

Definition proc_return {A : Type} (r : MergeResult) : Proc A :=
  ([], Return r).

Definition proc_panic {A : Type} (msg : string) : Proc A :=
  ([], Panicked msg).

(** A call on a collaborator, followed by the source's
    [if err != nil { return nil, nil, err }]. *)
Definition proc_try {A : Type} (c : Call) (r : result Error A) : Proc A :=
  match r with
  | Ok a => ([c], Continue a)
  | Err e => ([c], Return (mkMergeResult None None (Some e)))
  end.

Notation "x <- c ;; k" := (proc_bind c (fun x => k))
  (at level 100, c at next level, right associativity).

(** The loop over [tblNames]; [root] and [tblToStats] are the two variables
    it updates. *)
Fixpoint mergeTables (ctx : Context) (merger : Merger)
  (tblNames : list string) (root : RootValue)
  (tblToStats : gmap string (option MergeStats))
  : Proc (RootValue * gmap string (option MergeStats)) :=
  match tblNames with
  | [] => proc_ret (root, tblToStats)
  | tblName :: rest =>
      merged <-
        proc_try (CallMergeTable tblName) (MergeTable merger ctx tblName) ;;
      let '(mergedTable, stats) := merged in
      match mergedTable with
      | Some mergedTable =>
          let tblToStats := <[tblName := stats]> tblToStats in
          root <-
            proc_try (CallPutTable tblName)
              (PutTable root ctx tblName mergedTable) ;;
          mergeTables ctx merger rest root tblToStats
      | None =>
          has <- proc_try (CallHasTable tblName) (HasTable root ctx tblName) ;;
          if (has : bool) then
            let tblToStats :=
              <[tblName := Some (MergeStats_of_Operation TableRemoved)]>
                tblToStats in
            root <-
              proc_try (CallRemoveTables tblName)
                (RemoveTables root ctx tblName) ;;
            mergeTables ctx merger rest root tblToStats
          else proc_panic "?"
      end
  end.

Definition MergeCommits_body (ctx : Context) (ddb : DoltDB)
  (cm1 cm2 : Commit) : Proc MergeResult :=
  merger <-
    proc_try CallNewMerger
      (NewMerger ctx cm1 cm2 (DoltDB_ValueReadWriter ddb)) ;;
  root <- proc_try (CallGetRootValue cm1) (GetRootValue cm1) ;;
  rv <- proc_try (CallGetRootValue cm2) (GetRootValue cm2) ;;
  tblNames <- proc_try CallUnionTableNames (UnionTableNames ctx root rv) ;;
  let tblToStats : gmap string (option MergeStats) := ∅ in
  final <- mergeTables ctx merger tblNames root tblToStats ;;
  let '(root, tblToStats) := final in
  proc_return (mkMergeResult (Some root) (Some tblToStats) None).

(** [MergeCommits]: its calls on the collaborators, and what it returns. *)
Definition MergeCommits (ctx : Context) (ddb : DoltDB) (cm1 cm2 : Commit)
  : list Call * go MergeResult :=
  match MergeCommits_body ctx ddb cm1 cm2 with
  | (t, Continue r) => (t, Ret r)
  | (t, Return r) => (t, Ret r)
  | (t, Panicked msg) => (t, Panic msg)
  end.

(** Whether [MergeTable] returns without an error for a table. *)
Definition MergeTable_succeeds (ctx : Context) (merger : Merger)
  (tblName : string) : bool :=
  match MergeTable merger ctx tblName with
  | Ok _ => true
  | Err _ => false
  end.

(** Reading a trace of calls from its start: every [PutTable] and
    [RemoveTables] comes after a successful [MergeTable] of each of
    [tblNames].  [merged] holds the tables merged with success so far. *)
Fixpoint validated_before_applied (ctx : Context) (merger : Merger)
  (tblNames merged : list string) (t : list Call) : bool :=
  match t with
  | [] => true
  | CallMergeTable n :: t' =>
      validated_before_applied ctx merger tblNames
        (if MergeTable_succeeds ctx merger n then n :: merged else merged) t'
  | CallPutTable _ :: t' | CallRemoveTables _ :: t' =>
      forallb (fun n => bool_decide (n ∈ merged)) tblNames
      && validated_before_applied ctx merger tblNames merged t'
  | _ :: t' => validated_before_applied ctx merger tblNames merged t'
  end.

End MergeModel.

Arguments CallNewMerger {Commit}.
Arguments CallGetRootValue {Commit} cm.
Arguments CallUnionTableNames {Commit}.
Arguments CallMergeTable {Commit} tblName.
Arguments CallPutTable {Commit} tblName.
Arguments CallHasTable {Commit} tblName.
Arguments CallRemoveTables {Commit} tblName.
Arguments mkMergeResult {RootValue Error} res_root res_stats res_err.
Arguments res_root {RootValue Error} m.
Arguments res_stats {RootValue Error} m.
Arguments res_err {RootValue Error} m.
Arguments mergeTables {Context Commit Merger RootValue Table Error}
  MergeTable PutTable HasTable RemoveTables ctx merger tblNames root
  tblToStats.
Arguments MergeCommits_body
  {Context DoltDB Commit ValueReadWriter Merger RootValue Table Error}
  DoltDB_ValueReadWriter NewMerger GetRootValue UnionTableNames MergeTable
  PutTable HasTable RemoveTables ctx ddb cm1 cm2.
Arguments MergeCommits
  {Context DoltDB Commit ValueReadWriter Merger RootValue Table Error}
  DoltDB_ValueReadWriter NewMerger GetRootValue UnionTableNames MergeTable
  PutTable HasTable RemoveTables ctx ddb cm1 cm2.
Arguments MergeTable_succeeds {Context Merger Table Error} MergeTable
  ctx merger tblName.
Arguments validated_before_applied {Context Commit Merger Table Error}
  MergeTable ctx merger tblNames merged t.

(** ** A small store to run the definitions on *)

Module Sample.

(** Integers as values, compared as integers under the one format. *)
Definition Z_Equals (_ : unit) (a b : Z) : bool := a =? b.
Definition Z_Less (_ : unit) (a b : Z) : bool := a <? b.

(** Exact equality of two path parts and of two paths: the same variant
    with the same fields, element by element. *)
Definition PathPart_same (a b : PathPart Z) : bool :=
  match a, b with
  | PField x, PField y => string_eq (Name x) (Name y)
  | PIndex x, PIndex y =>
      (Index x =? Index y) && Bool.eqb (IntoKey x) (IntoKey y)
  | PHashIndex x, PHashIndex y =>
      (bytes_Compare (Hash x) (Hash y) =? 0)
      && Bool.eqb (HIntoKey x) (HIntoKey y)
  | PNil, PNil => true
  | _, _ => false
  end.

Fixpoint Path_same (p q : Path Z) : bool :=
  match p, q with
  | [], [] => true
  | a :: p', b :: q' => PathPart_same a b && Path_same p' q'
  | _, _ => false
  end.

Definition sort (p : Patch Z) : go (Patch Z) :=
  go_bind
    (sort_Sort_small
       (H := PatchSort_sort_Interface unit Z Z_Equals Z_Less Path_same)
       (mkPatchSort p tt))
    (fun ps => Ret (patch ps)).

Definition field (s : string) : PathPart Z := PField (mkFieldPath s).

(** Two modifications of the same field that write different values, and a
    removal and an addition at that field. *)
Definition mod_2 : Difference Z :=
  mkDifference [field "a"] DiffChangeModified (Some 1) (Some 2).
Definition mod_3 : Difference Z :=
  mkDifference [field "a"] DiffChangeModified (Some 1) (Some 3).
Definition rem_1 : Difference Z :=
  mkDifference [field "a"] DiffChangeRemoved (Some 1) None.
Definition add_4 : Difference Z :=
  mkDifference [field "a"] DiffChangeAdded None (Some 4).
Definition add_b : Difference Z :=
  mkDifference [field "a"; field "b"] DiffChangeAdded None (Some 5).

(** Roots as maps from table names to tables; a commit is its root.  No
    operation of this store fails except the table merge. *)
Abbreviation Root := (gmap string Z).

Definition NewMerger (_ : unit) (_ _ : Root) (_ : unit)
  : result string unit := Ok tt.
Definition GetRootValue (cm : Root) : result string Root := Ok cm.
Definition PutTable (r : Root) (_ : unit) (n : string) (t : Z)
  : result string Root := Ok (<[n := t]> r).
Definition HasTable (r : Root) (_ : unit) (n : string)
  : result string bool := Ok (bool_decide (is_Some (r !! n))).
Definition RemoveTables (r : Root) (_ : unit) (n : string)
  : result string Root := Ok (delete n r).

(** The union of the table names, given as the store lists it. *)
Definition UnionTableNames (names : list string) (_ : unit) (_ _ : Root)
  : result string (list string) := Ok names.

(** A merger that merges table a and fails on any other table. *)
Definition MergeTable_a_only (_ : unit) (_ : unit) (n : string)
  : result string (option Z * option MergeStats) :=
  if string_eq n "a"
  then Ok (Some 7, Some (mkMergeStats TableModified 0 0 1 0))
  else Err "schema".

(** A merger that merges table a and finds table t removed. *)
Definition MergeTable_t_removed (_ : unit) (_ : unit) (n : string)
  : result string (option Z * option MergeStats) :=
  if string_eq n "a"
  then Ok (Some 7, Some (mkMergeStats TableModified 0 0 1 0))
  else Ok (None, None).

Definition cm1 : Root := {[ "a" := 1; "t" := 2 ]}.
Definition cm2 : Root := {[ "a" := 7 ]}.

Definition merge (names : list string)
  (MergeTable :
     unit -> unit -> string -> result string (option Z * option MergeStats))
  : list (@Call Root) * go (@MergeResult Root string) :=
  MergeCommits (fun _ : unit => tt) NewMerger GetRootValue
    (UnionTableNames names) MergeTable PutTable HasTable RemoveTables
    tt tt cm1 cm2.

End Sample.


(** ** The calls of a merge, read back from its trace *)

(** The tables [MergeTable] was called for, in the order of the calls. *)
Fixpoint MergeTable_calls {Commit : Type} (t : list (Call Commit))
  : list string :=
  match t with
  | [] => []
  | CallMergeTable n :: t' => n :: MergeTable_calls t'
  | _ :: t' => MergeTable_calls t'
  end.

(** ** Listing the tables and the documents in conflict *)

(** The three roots of an environment. *)
Inductive RootKind : Type :=
| Head
| Staged
| Working.

(** The calls [GetTablesInConflict] and [GetDocsInConflict] make on their
    collaborators. *)
Inductive EnvCall : Type :=
| CallRoot (which : RootKind)
| CallTablesInConflict (which : RootKind)
| CallGetAllValidDocDetails
| CallNewDocDiffs.


Section ConflictModel.

(** The environment, its roots and the differences of its documents. *)
Variable Context : Type.
Variable DoltEnv : Type.
Variable RootValue : Type.
Variable DocDetails : Type.
Variable DocDiffs : Type.
Variable Error : Type.

Variable HeadRoot : DoltEnv -> Context -> result Error RootValue.
Variable StagedRoot : DoltEnv -> Context -> result Error RootValue.
Variable WorkingRoot : DoltEnv -> Context -> result Error RootValue.

(** [RootValue.TablesInConflict]; the slice it returns may be nil. *)
Variable TablesInConflict :
  RootValue -> Context -> result Error (option (list string)).

Variable GetAllValidDocDetails : DoltEnv -> result Error DocDetails.

(** [diff.NewDocDiffs], from an older and a newer root, either of which may
    be nil; what it returns is handed on as it is, so it is a pair of a
    pointer and an error, each of which may be nil. *)
Variable NewDocDiffs :
  Context -> DoltEnv -> option RootValue -> option RootValue -> DocDetails ->
  option DocDiffs * option Error.

(** The four values [GetTablesInConflict] returns, under the names the
    source gives them; [None] is Go's [nil]. *)
Record ConflictResult : Type := mkConflictResult {
  workingInConflict : option (list string);
  stagedInConflict : option (list string);
  headInConflict : option (list string);
  err : option Error
}.

(** A call on a collaborator: on an error the function returns [fail e] at
    once, otherwise it goes on with the value. *)
Definition try_call {A R : Type} (c : EnvCall) (r : result Error A)
  (fail : Error -> R) (k : A -> list EnvCall * R) : list EnvCall * R :=
  match r with
  | Err e => ([c], fail e)
  | Ok a => let '(t, res) := k a in (c :: t, res)
  end.

(** [GetTablesInConflict]: its calls on the collaborators, and what it
    returns. *)
Definition GetTablesInConflict (ctx : Context) (dEnv : DoltEnv)
  : list EnvCall * ConflictResult :=
  let fail e := mkConflictResult None None None (Some e) in
  try_call (CallRoot Head) (HeadRoot dEnv ctx) fail (fun headRoot =>
  try_call (CallRoot Staged) (StagedRoot dEnv ctx) fail (fun stagedRoot =>
  try_call (CallRoot Working) (WorkingRoot dEnv ctx) fail (fun workingRoot =>
  try_call (CallTablesInConflict Head) (TablesInConflict headRoot ctx) fail
    (fun headInConflict =>
  try_call (CallTablesInConflict Staged) (TablesInConflict stagedRoot ctx)
    fail (fun stagedInConflict =>
  try_call (CallTablesInConflict Working) (TablesInConflict workingRoot ctx)
    fail (fun workingInConflict =>
  ([], mkConflictResult workingInConflict stagedInConflict headInConflict
         None))))))).

(** [GetDocsInConflict]: its calls on the collaborators, and the pointer
    and the error it returns. *)
Definition GetDocsInConflict (ctx : Context) (dEnv : DoltEnv)
  : list EnvCall * (option DocDiffs * option Error) :=
  let fail e := (None, Some e) in
  try_call CallGetAllValidDocDetails (GetAllValidDocDetails dEnv) fail
    (fun docDetails =>
  try_call (CallRoot Working) (WorkingRoot dEnv ctx) fail (fun workingRoot =>
  ([CallNewDocDiffs],
   NewDocDiffs ctx dEnv (Some workingRoot) None docDetails))).

End ConflictModel.

Arguments mkConflictResult {Error} workingInConflict stagedInConflict
  headInConflict err.
Arguments workingInConflict {Error} c.
Arguments stagedInConflict {Error} c.
Arguments headInConflict {Error} c.
Arguments err {Error} c.
Arguments try_call {Error A R} c r fail k.
Arguments GetTablesInConflict {Context DoltEnv RootValue Error}
  HeadRoot StagedRoot WorkingRoot TablesInConflict ctx dEnv.
Arguments GetDocsInConflict
  {Context DoltEnv RootValue DocDetails DocDiffs Error}
  WorkingRoot GetAllValidDocDetails NewDocDiffs ctx dEnv.

(** ** A small environment to run the listings on *)

Module SampleEnv.

(** An environment holds, for each of its three roots, the tables in
    conflict there, or nothing where the root cannot be read. *)
Record Env : Type := mkEnv {
  in_head : option (list string);
  in_staged : option (list string);
  in_working : option (list string)
}.

Definition root_of (r : option (list string))
  : result string (list string) :=
  match r with
  | Some tables => Ok tables
  | None => Err "no root"
  end.

Definition HeadRoot (e : Env) (_ : unit) := root_of (in_head e).
Definition StagedRoot (e : Env) (_ : unit) := root_of (in_staged e).
Definition WorkingRoot (e : Env) (_ : unit) := root_of (in_working e).

(** The tables in conflict of a root; a root with a table named ! cannot be
    listed. *)
Definition TablesInConflict (r : list string) (_ : unit)
  : result string (option (list string)) :=
  if bool_decide ("!" ∈ r) then Err "unreadable" else Ok (Some r).

Definition GetAllValidDocDetails (e : Env) : result string (list string) :=
  Ok ["LICENSE.md"; "README.md"].

(** The differences of the documents: the documents with the number of
    tables of the older root, and an error where there is no older root. *)
Definition NewDocDiffs (_ : unit) (_ : Env)
  (older newer : option (list string)) (docs : list string)
  : option (list (string * nat)) * option string :=
  match older with
  | Some tables => (Some ((fun d => (d, length tables)) <$> docs), None)
  | None => (None, Some "no older root")
  end.

Definition no_staged : Env := mkEnv (Some []) None (Some ["t"]).
Definition bad_staged : Env := mkEnv (Some []) (Some ["!"]) (Some ["t"]).

Definition conflicts (e : Env) : list EnvCall * ConflictResult string :=
  GetTablesInConflict HeadRoot StagedRoot WorkingRoot TablesInConflict tt e.

Definition docs (e : Env)
  : list EnvCall * (option (list (string * nat)) * option string) :=
  GetDocsInConflict WorkingRoot GetAllValidDocDetails NewDocDiffs tt e.

End SampleEnv.


(** * Properties of the comparisons *)

(** ** Bytes, strings and flags *)

Lemma bytes_Compare_range (a b : list byte) :
  bytes_Compare a b = -1 \/ bytes_Compare a b = 0 \/ bytes_Compare a b = 1.
Proof.
  revert b; induction a as [|x a IH]; intros [|y b]; simpl; auto.
  destruct (N.compare (Byte.to_N x) (Byte.to_N y)); auto.
Qed.

Lemma bytes_Compare_refl (a : list byte) : bytes_Compare a a = 0.
Proof.
  induction a as [|x a IH]; simpl; [reflexivity|].
  now rewrite N.compare_refl.
Qed.

Lemma bytes_Compare_eq (a b : list byte) :
  bytes_Compare a b = 0 -> a = b.
Proof.
  revert b; induction a as [|x a IH]; intros [|y b]; simpl;
    try discriminate; [reflexivity|].
  destruct (N.compare_spec (Byte.to_N x) (Byte.to_N y)) as [E| |];
    try discriminate.
  intros H. f_equal; [|apply IH, H].
  pose proof (Byte.of_to_N x) as Hx. rewrite E, Byte.of_to_N in Hx.
  congruence.
Qed.

Lemma bytes_Compare_antisym (a b : list byte) :
  bytes_Compare b a = - bytes_Compare a b.
Proof.
  revert b; induction a as [|x a IH]; intros [|y b]; simpl; try reflexivity.
  rewrite (N.compare_antisym (Byte.to_N x) (Byte.to_N y)).
  destruct (N.compare (Byte.to_N x) (Byte.to_N y)); simpl; auto.
Qed.

Lemma bytes_Compare_compose (a b c : list byte) :
  bytes_Compare a b <= 0 -> bytes_Compare b c <= 0 ->
  bytes_Compare a c = Z.min (bytes_Compare a b) (bytes_Compare b c).
Proof.
  revert b c; induction a as [|x a IH]; intros [|y b] [|z c]; simpl;
    try lia.
  { pose proof (bytes_Compare_range b c).
    destruct (N.compare (Byte.to_N y) (Byte.to_N z)); lia. }
  destruct (N.compare_spec (Byte.to_N x) (Byte.to_N y)) as [E1|L1|G1];
    destruct (N.compare_spec (Byte.to_N y) (Byte.to_N z)) as [E2|L2|G2];
    intros H1 H2; try lia.
  - rewrite E1, E2, N.compare_refl. now apply IH.
  - rewrite E1. rewrite (proj2 (N.compare_lt_iff _ _) L2).
    pose proof (bytes_Compare_range a b). lia.
  - rewrite <- E2. rewrite (proj2 (N.compare_lt_iff _ _) L1).
    pose proof (bytes_Compare_range b c). lia.
  - rewrite (proj2 (N.compare_lt_iff _ _) (N.lt_trans _ _ _ L1 L2)). lia.
Qed.

Lemma bytes_Compare_three_way : three_way bytes_Compare.
Proof.
  constructor.
  - apply bytes_Compare_range.
  - apply bytes_Compare_antisym.
  - apply bytes_Compare_compose.
Qed.

(** The three-way reading of the string order, through [String.compare]. *)
Lemma string_compare_unfold (s t : string) :
  string_compare s t =
  match String.compare s t with Eq => 0 | Lt => -1 | Gt => 1 end.
Proof.
  unfold string_compare, string_eq, string_lt, String.ltb.
  destruct (String.eqb_spec s t) as [->|Hne].
  - assert (String.compare t t = Eq) as ->; [|reflexivity].
    induction t as [|c t IH]; simpl; [reflexivity|].
    unfold Ascii.compare. now rewrite N.compare_refl.
  - destruct (String.compare s t) eqn:E; try reflexivity.
    apply String.compare_eq_iff in E. contradiction.
Qed.

Lemma String_compare_compose (s t u : string) :
  String.compare s t <> Gt -> String.compare t u <> Gt ->
  String.compare s u =
  match String.compare s t with Eq => String.compare t u | c => c end.
Proof.
  revert t u; induction s as [|a s IH]; intros [|b t] [|c u]; simpl;
    try congruence.
  unfold Ascii.compare.
  destruct (N.compare_spec (N_of_ascii a) (N_of_ascii b)) as [E1|L1|G1];
    destruct (N.compare_spec (N_of_ascii b) (N_of_ascii c)) as [E2|L2|G2];
    intros H1 H2; try congruence.
  - rewrite E1, E2, N.compare_refl. now apply IH.
  - rewrite E1. rewrite (proj2 (N.compare_lt_iff _ _) L2).
    destruct (String.compare s t); congruence.
  - rewrite <- E2. now rewrite (proj2 (N.compare_lt_iff _ _) L1).
  - now rewrite (proj2 (N.compare_lt_iff _ _) (N.lt_trans _ _ _ L1 L2)).
Qed.

Lemma string_compare_three_way : three_way string_compare.
Proof.
  constructor.
  - intros s t. rewrite string_compare_unfold.
    destruct (String.compare s t); auto.
  - intros s t. rewrite !string_compare_unfold.
    rewrite (String.compare_antisym s t).
    destruct (String.compare t s); reflexivity.
  - intros s t u. rewrite !string_compare_unfold. intros H1 H2.
    rewrite (String_compare_compose s t u).
    + destruct (String.compare s t), (String.compare t u); simpl in *; lia.
    + destruct (String.compare s t); simpl in *; (congruence || lia).
    + destruct (String.compare t u); simpl in *; (congruence || lia).
Qed.

Lemma IntoKey_compare_three_way : three_way IntoKey_compare.
Proof.
  constructor.
  - intros [] []; cbv; auto.
  - intros [] []; reflexivity.
  - intros [] [] []; cbv; congruence.
Qed.

(** A comparison read through a field of a struct. *)
Lemma three_way_on {A B : Type} (f : B -> A) (c : A -> A -> Z) :
  three_way c -> three_way (fun x y => c (f x) (f y)).
Proof.
  intros [R S C]. constructor; intros; auto.
Qed.

(** The lexicographic combination of two comparisons. *)
Lemma three_way_lex {A : Type} (c1 c2 : A -> A -> Z) :
  three_way c1 -> three_way c2 ->
  three_way (fun x y => lex (c1 x y) (c2 x y)).
Proof.
  intros [R1 S1 C1] [R2 S2 C2]. constructor.
  - intros x y. unfold lex.
    destruct (Z.eqb_spec (c1 x y) 0); [apply R2|].
    destruct (R1 x y) as [?|[?|?]]; auto; contradiction.
  - intros x y. unfold lex. rewrite (S1 x y), (S2 x y).
    destruct (Z.eqb_spec (c1 x y) 0), (Z.eqb_spec (- c1 x y) 0); lia.
  - intros x y z. unfold lex.
    pose proof (R1 x y) as Rxy. pose proof (R1 y z) as Ryz.
    pose proof (R2 x y) as Rxy'. pose proof (R2 y z) as Ryz'.
    pose proof (C1 x y z) as Cxz. pose proof (C2 x y z) as Cxz'.
    destruct (Z.eqb_spec (c1 x y) 0), (Z.eqb_spec (c1 y z) 0),
      (Z.eqb_spec (c1 x z) 0); lia.
Qed.

(** ** Path parts *)

Section PartOrder.

Variable Format : Type.
Variable Value : Type.
Variable Value_Equals : Format -> Value -> Value -> bool.
Variable Value_Less : Format -> Value -> Value -> bool.

Local Abbreviation cmp := (pathPartCompare Value_Equals Value_Less).
Local Abbreviation vcmp := (Value_compare Value_Equals Value_Less).
Local Abbreviation isLess := (pathIsLess Value_Equals Value_Less).
Local Abbreviation lexLess := (path_lex Value_Equals Value_Less).

(** Two parts of the same variant: what each comparison function returns,
    as a three-way comparison of the fields. *)
Lemma cmp_Field_Field (format : Format) (x y : FieldPath) :
  cmp format (PField x) (PField y) = Ret (string_compare (Name x) (Name y)).
Proof.
  simpl. unfold string_compare.
  destruct (string_eq (Name x) (Name y)); [reflexivity|].
  destruct (string_lt (Name x) (Name y)); reflexivity.
Qed.

Lemma cmp_Index_Index (format : Format) (x y : IndexPath Value) :
  cmp format (PIndex x) (PIndex y) =
  Ret (lex (vcmp format (Index x) (Index y))
           (IntoKey_compare (IntoKey x) (IntoKey y))).
Proof.
  simpl. unfold Value_compare, IntoKey_compare, lex.
  destruct (Value_Equals format (Index x) (Index y)); simpl.
  - destruct (Bool.eqb (IntoKey x) (IntoKey y)); [reflexivity|].
    destruct (IntoKey x); reflexivity.
  - destruct (Value_Less format (Index x) (Index y)); reflexivity.
Qed.

Lemma cmp_HashIndex_HashIndex (format : Format) (x y : HashIndexPath) :
  cmp format (PHashIndex x) (PHashIndex y) =
  Ret (lex (bytes_Compare (Hash x) (Hash y))
           (IntoKey_compare (HIntoKey x) (HIntoKey y))).
Proof.
  simpl. unfold IntoKey_compare, lex.
  destruct (bytes_Compare_range (Hash x) (Hash y)) as [E|[E|E]];
    rewrite E; simpl; [reflexivity| |reflexivity].
  destruct (Bool.eqb (HIntoKey x) (HIntoKey y)); [reflexivity|].
  destruct (HIntoKey x); reflexivity.
Qed.

Lemma lex_range (c1 c2 : Z) :
  (c1 = -1 \/ c1 = 0 \/ c1 = 1) -> (c2 = -1 \/ c2 = 0 \/ c2 = 1) ->
  lex c1 c2 = -1 \/ lex c1 c2 = 0 \/ lex c1 c2 = 1.
Proof.
  unfold lex. intros H1 H2. destruct (Z.eqb_spec c1 0); auto.
Qed.

Lemma vcmp_range (format : Format) (x y : Value) :
  vcmp format x y = -1 \/ vcmp format x y = 0 \/ vcmp format x y = 1.
Proof.
  unfold Value_compare.
  destruct (Value_Equals format x y); auto.
  destruct (Value_Less format x y); auto.
Qed.

(** A comparison that returns, returns -1, 0 or 1, and both its arguments
    are of a known variant. *)
Lemma cmp_Ret_inv (format : Format) (a b : PathPart Value) (r : Z) :
  cmp format a b = Ret r ->
  (r = -1 \/ r = 0 \/ r = 1) /\ is_variant a = true /\ is_variant b = true.
Proof.
  destruct a as [x|x|x|], b as [y|y|y|]; try discriminate;
    rewrite ?cmp_Field_Field, ?cmp_Index_Index, ?cmp_HashIndex_HashIndex;
    try (simpl; intros [= <-]; auto; fail); intros [= <-];
    (split; [|split; reflexivity]).
  - apply (tw_range _ string_compare_three_way).
  - apply lex_range; [apply vcmp_range|].
    apply (tw_range _ IntoKey_compare_three_way).
  - apply lex_range; [apply bytes_Compare_range|].
    apply (tw_range _ IntoKey_compare_three_way).
Qed.

Lemma cmp_variants (format : Format) (a b : PathPart Value) :
  is_variant a = true -> is_variant b = true ->
  exists r, cmp format a b = Ret r.
Proof.
  destruct a as [x|x|x|], b as [y|y|y|]; try discriminate; intros _ _;
    rewrite ?cmp_Field_Field, ?cmp_Index_Index, ?cmp_HashIndex_HashIndex;
    eauto.
Qed.

(** C9: [pathPartCompare] is total over the three variants.  On two parts
    each of which is a FieldPath, an IndexPath or a HashIndexPath it returns
    -1, 0 or 1, and so does each of the three per-variant functions it
    dispatches to: no [panic("unreachable")] is reached. *)
Theorem pathPartCompare_total (format : Format) (a b : PathPart Value) :
  is_variant a = true -> is_variant b = true ->
  (exists r, cmp format a b = Ret r /\ (r = -1 \/ r = 0 \/ r = 1))
  /\ (forall pp, exists r,
        fieldPathCompare pp b = Ret r /\ (r = -1 \/ r = 0 \/ r = 1))
  /\ (forall pp, exists r,
        indexPathCompare Value_Equals Value_Less format pp b = Ret r
        /\ (r = -1 \/ r = 0 \/ r = 1))
  /\ (forall pp, exists r,
        hashIndexPathCompare pp b = Ret r /\ (r = -1 \/ r = 0 \/ r = 1)).
Proof.
  intros Ha Hb.
  assert (forall a', is_variant a' = true ->
            exists r, cmp format a' b = Ret r /\ (r = -1 \/ r = 0 \/ r = 1))
    as Hall.
  { intros a' Ha'. destruct (cmp_variants format a' b Ha' Hb) as [r Hr].
    exists r. split; [exact Hr|]. apply (cmp_Ret_inv _ _ _ _ Hr). }
  split; [apply Hall, Ha|].
  split; [|split]; intros pp.
  - apply (Hall (PField pp)). reflexivity.
  - apply (Hall (PIndex pp)). reflexivity.
  - apply (Hall (PHashIndex pp)). reflexivity.
Qed.

(** C2: two parts of different variants are ordered by variant alone,
    FieldPath before IndexPath before HashIndexPath, whatever the field
    name, the index, the hash and the IntoKey flags are. *)
Theorem pathPartCompare_cross_variant (format : Format)
  (f : FieldPath) (i : IndexPath Value) (h : HashIndexPath) :
  cmp format (PField f) (PIndex i) = Ret (-1)
  /\ cmp format (PField f) (PHashIndex h) = Ret (-1)
  /\ cmp format (PIndex i) (PHashIndex h) = Ret (-1)
  /\ cmp format (PIndex i) (PField f) = Ret 1
  /\ cmp format (PHashIndex h) (PField f) = Ret 1
  /\ cmp format (PHashIndex h) (PIndex i) = Ret 1.
Proof.
  repeat split; reflexivity.
Qed.

(** C3: where two IndexPath parts have equal indices under the format, and
    where two HashIndexPath parts have equal hash bytes, the IntoKey flag
    decides: the part with IntoKey set is less than the one without, and
    two parts with the same flag compare equal. *)
Theorem IntoKey_breaks_ties (format : Format) :
  (forall x y : IndexPath Value,
     Value_Equals format (Index x) (Index y) = true ->
     (IntoKey x = true -> IntoKey y = false ->
      cmp format (PIndex x) (PIndex y) = Ret (-1))
     /\ (IntoKey x = false -> IntoKey y = true ->
         cmp format (PIndex x) (PIndex y) = Ret 1)
     /\ (IntoKey x = IntoKey y ->
         cmp format (PIndex x) (PIndex y) = Ret 0))
  /\ (forall x y : HashIndexPath,
        Hash x = Hash y ->
        (HIntoKey x = true -> HIntoKey y = false ->
         cmp format (PHashIndex x) (PHashIndex y) = Ret (-1))
        /\ (HIntoKey x = false -> HIntoKey y = true ->
            cmp format (PHashIndex x) (PHashIndex y) = Ret 1)
        /\ (HIntoKey x = HIntoKey y ->
            cmp format (PHashIndex x) (PHashIndex y) = Ret 0)).
Proof.
  split.
  - intros x y E. simpl. rewrite E.
    repeat split.
    + intros -> ->. reflexivity.
    + intros -> ->. reflexivity.
    + intros ->. now rewrite Bool.eqb_reflx.
  - intros x y E. simpl. rewrite E, bytes_Compare_refl. simpl.
    repeat split.
    + intros -> ->. reflexivity.
    + intros -> ->. reflexivity.
    + intros ->. now rewrite Bool.eqb_reflx.
Qed.

(** ** Paths *)

(** The loop of [pathIsLess] computes the recursion on the two paths. *)
Lemma pathIsLess_loop_lex (format : Format) (rest pre1 pre2 q : Path Value) :
  length pre1 = length pre2 ->
  pathIsLess_loop Value_Equals Value_Less format
    (pre1 ++ rest) (pre2 ++ q) (length pre2) rest
  = lexLess format rest q.
Proof.
  revert pre1 pre2 q.
  induction rest as [|a rest IH]; intros pre1 pre2 q Hlen;
    cbn [pathIsLess_loop path_lex].
  - rewrite !length_app, Hlen. simpl.
    destruct q as [|b q]; simpl; f_equal.
    + apply Nat.ltb_ge. lia.
    + apply Nat.ltb_lt. lia.
  - destruct q as [|b q].
    + rewrite app_nil_r, Nat.eqb_refl. reflexivity.
    + rewrite length_app. simpl.
      replace (length pre2 + S (length q) =? length pre2)%nat with false
        by (symmetry; apply Nat.eqb_neq; lia).
      rewrite list_lookup_middle by reflexivity.
      destruct (cmp format a b) as [c|msg]; [|reflexivity].
      destruct (c =? -1); [reflexivity|].
      destruct (c =? 1); [reflexivity|].
      specialize (IH (pre1 ++ [a]) (pre2 ++ [b]) q).
      rewrite <- !app_assoc, !length_app in IH. simpl in IH.
      rewrite !Nat.add_1_r in IH. apply IH. lia.
Qed.

Lemma pathIsLess_lex (format : Format) (p1 p2 : Path Value) :
  isLess format p1 p2 = lexLess format p1 p2.
Proof.
  apply (pathIsLess_loop_lex format p1 [] [] p2). reflexivity.
Qed.

(** The path order read off the first part that differs. *)
Lemma lex_first_difference (format : Format)
  (pre1 pre2 rest1 rest2 : Path Value) (a b : PathPart Value) (c : Z) :
  Forall2 (fun x y => cmp format x y = Ret 0) pre1 pre2 ->
  cmp format a b = Ret c -> c <> 0 ->
  lexLess format (pre1 ++ a :: rest1) (pre2 ++ b :: rest2) = Ret (c =? -1).
Proof.
  intros Hpre Hab Hc.
  induction Hpre as [|x y pre1 pre2 Hxy _ IH]; simpl.
  - rewrite Hab.
    destruct (cmp_Ret_inv _ _ _ _ Hab) as [[->|[->| ->]] _];
      [reflexivity|contradiction|reflexivity].
  - rewrite Hxy. simpl. exact IH.
Qed.

Lemma lex_prefix (format : Format) (p1 p2 : Path Value) :
  (length p1 < length p2)%nat ->
  (forall i a b, p1 !! i = Some a -> p2 !! i = Some b ->
                 cmp format a b = Ret 0) ->
  lexLess format p1 p2 = Ret true.
Proof.
  revert p2. induction p1 as [|a p1 IH]; intros [|b p2] Hlen Hparts;
    simpl in Hlen; try lia; simpl; [reflexivity|].
  rewrite (Hparts 0%nat a b eq_refl eq_refl). simpl.
  apply IH; [lia|].
  intros i x y Hx Hy. apply (Hparts (S i)); assumption.
Qed.

Lemma lex_longer (format : Format) (p1 p2 : Path Value) :
  (length p1 < length p2)%nat ->
  (forall i a b, p1 !! i = Some a -> p2 !! i = Some b ->
                 cmp format b a = Ret 0) ->
  lexLess format p2 p1 = Ret false.
Proof.
  revert p2. induction p1 as [|a p1 IH]; intros [|b p2] Hlen Hparts;
    simpl in Hlen; try lia; simpl; [reflexivity|].
  rewrite (Hparts 0%nat a b eq_refl eq_refl). simpl.
  apply IH; [lia|].
  intros i x y Hx Hy. apply (Hparts (S i)); assumption.
Qed.

(** ** The order under the contract of the value store *)

(** [Value.Equals] is an equivalence under each format and [Value.Less] a
    strict total order of its classes. *)
Hypothesis Equals_sym : forall f x y,
  Value_Equals f x y = Value_Equals f y x.
Hypothesis Equals_trans : forall f x y z,
  Value_Equals f x y = true -> Value_Equals f y z = true ->
  Value_Equals f x z = true.
Hypothesis Less_total : forall f x y,
  Value_Equals f x y = false -> Value_Less f y x = negb (Value_Less f x y).
Hypothesis Less_trans : forall f x y z,
  Value_Less f x y = true -> Value_Less f y z = true ->
  Value_Less f x z = true.
Hypothesis Less_compat : forall f x y z,
  Value_Equals f x y = true ->
  Value_Less f x z = Value_Less f y z /\ Value_Less f z x = Value_Less f z y.

Lemma lex_zero (c1 c2 : Z) : lex c1 c2 = 0 <-> c1 = 0 /\ c2 = 0.
Proof.
  unfold lex. destruct (Z.eqb_spec c1 0); lia.
Qed.

Lemma vcmp_zero (format : Format) (x y : Value) :
  vcmp format x y = 0 <-> Value_Equals format x y = true.
Proof.
  unfold Value_compare.
  destruct (Value_Equals format x y); [tauto|].
  destruct (Value_Less format x y); split; (lia || discriminate).
Qed.

(** Parts that compare equal do so in both directions. *)
Lemma cmp_zero_sym (format : Format) (a b : PathPart Value) :
  cmp format a b = Ret 0 -> cmp format b a = Ret 0.
Proof using Equals_sym.
  destruct a as [x|x|x|], b as [y|y|y|]; try discriminate;
    rewrite ?cmp_Field_Field, ?cmp_Index_Index, ?cmp_HashIndex_HashIndex;
    intros [= E]; f_equal.
  - rewrite (tw_antisym _ string_compare_three_way), E. reflexivity.
  - apply lex_zero in E as [E1 E2]. apply lex_zero. split.
    + apply vcmp_zero. rewrite Equals_sym. now apply vcmp_zero.
    + rewrite (tw_antisym _ IntoKey_compare_three_way), E2. reflexivity.
  - apply lex_zero in E as [E1 E2]. apply lex_zero. split.
    + rewrite bytes_Compare_antisym, E1. reflexivity.
    + rewrite (tw_antisym _ IntoKey_compare_three_way), E2. reflexivity.
Qed.

(** C4: a path that is a strict prefix of another, part by part equal under
    the comparison, is less than it and not the other way round; and where
    two paths first differ, the comparison of those two parts decides. *)
Theorem pathIsLess_prefix_and_first_difference (format : Format) :
  (forall p1 p2 : Path Value,
     (length p1 < length p2)%nat ->
     (forall i a b, p1 !! i = Some a -> p2 !! i = Some b ->
                    cmp format a b = Ret 0) ->
     isLess format p1 p2 = Ret true /\ isLess format p2 p1 = Ret false)
  /\ (forall (pre1 pre2 rest1 rest2 : Path Value) (a b : PathPart Value)
        (c : Z),
        Forall2 (fun x y => cmp format x y = Ret 0) pre1 pre2 ->
        cmp format a b = Ret c -> c <> 0 ->
        isLess format (pre1 ++ a :: rest1) (pre2 ++ b :: rest2)
        = Ret (c =? -1)).
Proof using Equals_sym.
  split.
  - intros p1 p2 Hlen Hparts. rewrite !pathIsLess_lex. split.
    + apply lex_prefix; assumption.
    + apply lex_longer; [assumption|].
      intros i a b Ha Hb. apply cmp_zero_sym. eapply Hparts; eassumption.
  - intros pre1 pre2 rest1 rest2 a b c Hpre Hab Hc.
    rewrite pathIsLess_lex. apply lex_first_difference; assumption.
Qed.

Lemma vcmp_three_way (format : Format) : three_way (vcmp format).
Proof using Equals_sym Equals_trans Less_total Less_trans Less_compat.
  constructor.
  - apply vcmp_range.
  - intros x y. unfold Value_compare. rewrite (Equals_sym format y x).
    destruct (Value_Equals format x y) eqn:E; [reflexivity|].
    rewrite (Less_total format x y E).
    destruct (Value_Less format x y); reflexivity.
  - intros x y z. unfold Value_compare.
    destruct (Value_Equals format x y) eqn:Exy;
      destruct (Value_Equals format y z) eqn:Eyz.
    + rewrite (Equals_trans _ _ _ _ Exy Eyz). reflexivity.
    + destruct (Value_Less format y z) eqn:Lyz; [intros _ _|lia].
      destruct (Value_Equals format x z) eqn:Exz.
      * rewrite Equals_sym in Exy.
        rewrite (Equals_trans _ _ _ _ Exy Exz) in Eyz. discriminate.
      * rewrite (proj1 (Less_compat _ _ _ z Exy)), Lyz. reflexivity.
    + destruct (Value_Less format x y) eqn:Lxy; [intros _ _|lia].
      destruct (Value_Equals format x z) eqn:Exz.
      * rewrite Equals_sym in Eyz.
        rewrite (Equals_trans _ _ _ _ Exz Eyz) in Exy. discriminate.
      * rewrite <- (proj2 (Less_compat _ _ _ x Eyz)), Lxy. reflexivity.
    + destruct (Value_Less format x y) eqn:Lxy; [|lia].
      destruct (Value_Less format y z) eqn:Lyz; [intros _ _|lia].
      rewrite (Less_trans _ _ _ _ Lxy Lyz).
      destruct (Value_Equals format x z) eqn:Exz; [|reflexivity].
      pose proof (proj1 (Less_compat _ _ _ y Exz)) as Hc.
      rewrite Lxy in Hc.
      rewrite Equals_sym in Eyz.
      rewrite (Less_total _ _ _ Eyz), <- Hc in Lyz. discriminate.
Qed.

Lemma field_three_way :
  three_way (fun x y : FieldPath => string_compare (Name x) (Name y)).
Proof.
  apply (three_way_on Name), string_compare_three_way.
Qed.

Lemma index_three_way (format : Format) :
  three_way (fun x y : IndexPath Value =>
               lex (vcmp format (Index x) (Index y))
                   (IntoKey_compare (IntoKey x) (IntoKey y))).
Proof using Equals_sym Equals_trans Less_total Less_trans Less_compat.
  apply three_way_lex.
  - apply (three_way_on Index), vcmp_three_way.
  - apply (three_way_on IntoKey), IntoKey_compare_three_way.
Qed.

Lemma hashIndex_three_way :
  three_way (fun x y : HashIndexPath =>
               lex (bytes_Compare (Hash x) (Hash y))
                   (IntoKey_compare (HIntoKey x) (HIntoKey y))).
Proof.
  apply three_way_lex.
  - apply (three_way_on Hash), bytes_Compare_three_way.
  - apply (three_way_on HIntoKey), IntoKey_compare_three_way.
Qed.

(** Swapping the arguments of a comparison negates its result. *)
Lemma cmp_antisym (format : Format) (a b : PathPart Value) (r : Z) :
  cmp format a b = Ret r -> cmp format b a = Ret (- r).
Proof using Equals_sym Equals_trans Less_total Less_trans Less_compat.
  destruct a as [x|x|x|], b as [y|y|y|]; try discriminate;
    rewrite ?cmp_Field_Field, ?cmp_Index_Index, ?cmp_HashIndex_HashIndex;
    try (simpl; intros [= <-]; reflexivity); intros [= <-]; f_equal.
  - apply (tw_antisym _ field_three_way).
  - apply (tw_antisym _ (index_three_way format)).
  - apply (tw_antisym _ hashIndex_three_way).
Qed.

(** Two comparisons in a row, neither of which goes up, compose to the
    lower of the two results. *)
Lemma cmp_compose (format : Format) (a b c : PathPart Value) (r1 r2 : Z) :
  cmp format a b = Ret r1 -> cmp format b c = Ret r2 ->
  r1 <= 0 -> r2 <= 0 ->
  cmp format a c = Ret (Z.min r1 r2).
Proof using Equals_sym Equals_trans Less_total Less_trans Less_compat.
  intros Hab Hbc.
  destruct (cmp_Ret_inv _ _ _ _ Hab) as [R1 _].
  destruct (cmp_Ret_inv _ _ _ _ Hbc) as [R2 _].
  revert Hab Hbc.
  destruct a as [x|x|x|], b as [y|y|y|], c as [z|z|z|]; try discriminate;
    rewrite ?cmp_Field_Field, ?cmp_Index_Index, ?cmp_HashIndex_HashIndex;
    try (simpl; intros [= <-] [= <-] H1 H2; f_equal; lia);
    try (simpl; intros [= E1] [= E2] H1 H2; f_equal; lia);
    intros [= <-] [= <-] H1 H2; f_equal.
  - apply (tw_compose _ field_three_way); assumption.
  - apply (tw_compose _ (index_three_way format)); assumption.
  - apply (tw_compose _ hashIndex_three_way); assumption.
Qed.

Lemma lex_trans (format : Format) (p q r : Path Value) :
  lexLess format p q = Ret true -> lexLess format q r = Ret true ->
  lexLess format p r = Ret true.
Proof using Equals_sym Equals_trans Less_total Less_trans Less_compat.
  revert q r. induction p as [|a p IH]; intros [|b q] [|c r]; simpl;
    try discriminate; try reflexivity.
  destruct (cmp format a b) as [c1|] eqn:Hab; [|discriminate].
  destruct (cmp format b c) as [c2|] eqn:Hbc; [|discriminate].
  destruct (cmp_Ret_inv _ _ _ _ Hab) as [[->|[->| ->]] _];
    destruct (cmp_Ret_inv _ _ _ _ Hbc) as [[->|[->| ->]] _];
    simpl; try discriminate; intros Hpq Hqr;
    rewrite (cmp_compose _ _ _ _ _ _ Hab Hbc) by lia; simpl;
    try reflexivity.
  exact (IH _ _ Hpq Hqr).
Qed.

Lemma lex_asym (format : Format) (p q : Path Value) :
  lexLess format p q = Ret true -> lexLess format q p = Ret true -> False.
Proof using Equals_sym Equals_trans Less_total Less_trans Less_compat.
  revert q. induction p as [|a p IH]; intros [|b q]; simpl;
    try discriminate.
  destruct (cmp format a b) as [c1|] eqn:Hab; [|discriminate].
  rewrite (cmp_antisym _ _ _ _ Hab).
  destruct (cmp_Ret_inv _ _ _ _ Hab) as [[->|[->| ->]] _]; simpl;
    try discriminate.
  apply IH.
Qed.

(** C5: the comparison of path parts is that of a strict weak order.
    Being less is transitive and never holds in both directions, parts that
    compare equal form classes, and swapping the two arguments negates the
    result; being less is transitive and asymmetric on paths as well. *)
Theorem patch_order_strict_weak (format : Format) :
  (forall a b c : PathPart Value,
     cmp format a b = Ret (-1) -> cmp format b c = Ret (-1) ->
     cmp format a c = Ret (-1))
  /\ (forall a b : PathPart Value,
        ~ (cmp format a b = Ret (-1) /\ cmp format b a = Ret (-1)))
  /\ (forall a b : PathPart Value,
        is_variant a = true -> is_variant b = true ->
        exists r, cmp format a b = Ret r /\ cmp format b a = Ret (- r))
  /\ (forall a b c : PathPart Value,
        cmp format a b = Ret 0 -> cmp format b c = Ret 0 ->
        cmp format a c = Ret 0)
  /\ (forall p q r : Path Value,
        isLess format p q = Ret true -> isLess format q r = Ret true ->
        isLess format p r = Ret true)
  /\ (forall p q : Path Value,
        ~ (isLess format p q = Ret true /\ isLess format q p = Ret true)).
Proof using Equals_sym Equals_trans Less_total Less_trans Less_compat.
  repeat split.
  - intros a b c Hab Hbc.
    apply (cmp_compose _ _ _ _ _ _ Hab Hbc); lia.
  - intros a b [Hab Hba].
    rewrite (cmp_antisym _ _ _ _ Hab) in Hba. discriminate.
  - intros a b Ha Hb.
    destruct (cmp_variants format a b Ha Hb) as [r Hr].
    exists r. split; [exact Hr|]. apply cmp_antisym, Hr.
  - intros a b c Hab Hbc.
    apply (cmp_compose _ _ _ _ _ _ Hab Hbc); lia.
  - intros p q r. rewrite !pathIsLess_lex. apply lex_trans.
  - intros p q. rewrite !pathIsLess_lex. intros [Hpq Hqp].
    exact (lex_asym _ _ _ Hpq Hqp).
Qed.

End PartOrder.

(** * Properties of the patch order *)

Lemma vals_at_Removed : vals_at DiffChangeRemoved = 0.
Proof. reflexivity. Qed.

Lemma vals_at_Modified : vals_at DiffChangeModified = 1.
Proof. reflexivity. Qed.

Lemma vals_at_Added : vals_at DiffChangeAdded = 2.
Proof. reflexivity. Qed.

Section PatchOrderFacts.

Variable Format : Type.
Variable Value : Type.
Variable Value_Equals : Format -> Value -> Value -> bool.
Variable Value_Less : Format -> Value -> Value -> bool.
Variable Path_Equals : Path Value -> Path Value -> bool.

Local Abbreviation dLess :=
  (Difference_Less Value_Equals Value_Less Path_Equals).
Local Abbreviation psLess :=
  (PatchSort_Less Value_Equals Value_Less Path_Equals).
Local Abbreviation in_order :=
  (patch_in_order Value_Equals Value_Less Path_Equals).

(** C1: of two differences of a patch whose paths are exactly equal, a
    removal is ordered before a modification and a modification before an
    addition (hence a removal before an addition), at whatever positions
    [i] and [j] the two stand. *)
Theorem Less_same_path_by_change_type (ps : PatchSort Format Value)
  (i j : nat) (di dj : Difference Value) :
  patch ps !! i = Some di -> patch ps !! j = Some dj ->
  Path_Equals (DPath di) (DPath dj) = true ->
  Path_Equals (DPath dj) (DPath di) = true ->
  (ChangeType di = DiffChangeRemoved /\ ChangeType dj = DiffChangeModified)
  \/ (ChangeType di = DiffChangeModified /\ ChangeType dj = DiffChangeAdded)
  \/ (ChangeType di = DiffChangeRemoved /\ ChangeType dj = DiffChangeAdded) ->
  psLess ps i j = Ret true /\ psLess ps j i = Ret false.
Proof.
  intros Hi Hj Eij Eji Hct.
  unfold PatchSort_Less, Difference_Less. rewrite Hi, Hj, Eij, Eji.
  destruct Hct as [[-> ->]|[[-> ->]|[-> ->]]];
    rewrite ?vals_at_Removed, ?vals_at_Modified, ?vals_at_Added;
    split; reflexivity.
Qed.

Lemma in_order_cons (fmt : Format) (d : Difference Value)
  (p : Patch Value) :
  in_order fmt (d :: p) = true ->
  (forall d', d' ∈ p -> dLess fmt d' d = Ret false) /\ in_order fmt p = true.
Proof.
  simpl. intros [Hall Hp]%andb_prop. split; [|exact Hp].
  intros d' Hin. apply list_elem_of_In in Hin.
  pose proof (proj1 (forallb_forall _ _) Hall d' Hin) as Hd. simpl in Hd.
  destruct (dLess fmt d' d) as [[]|]; (reflexivity || discriminate).
Qed.

(** Where the comparator separates any two different elements of a
    collection, the collection has one arrangement in order only. *)
Lemma in_order_unique (fmt : Format) (p1 p2 : Patch Value) :
  p1 ≡ₚ p2 ->
  patch_in_order Value_Equals Value_Less Path_Equals fmt p1 = true ->
  patch_in_order Value_Equals Value_Less Path_Equals fmt p2 = true ->
  (forall x y, x ∈ p1 -> y ∈ p1 ->
     Difference_Less Value_Equals Value_Less Path_Equals fmt x y = Ret false ->
     Difference_Less Value_Equals Value_Less Path_Equals fmt y x = Ret false ->
     x = y) ->
  p1 = p2.
Proof.
  revert p2. induction p1 as [|x p1 IH]; intros p2 Hperm H1 H2 Hsep.
  - apply Permutation_nil_l, Hperm.
  - destruct p2 as [|y p2].
    { apply Permutation_nil_r in Hperm. discriminate Hperm. }
    apply in_order_cons in H1 as [Hx H1].
    apply in_order_cons in H2 as [Hy H2].
    assert (x = y) as <-.
    { assert (x ∈ y :: p2) as Hxin by (rewrite <- Hperm; left).
      assert (y ∈ x :: p1) as Hyin by (rewrite Hperm; left).
      apply elem_of_cons in Hxin as [E|Hxin]; [exact E|].
      apply elem_of_cons in Hyin as [E|Hyin]; [symmetry; exact E|].
      apply Hsep; [left|right; exact Hyin|apply Hy, Hxin|apply Hx, Hyin]. }
    f_equal. apply IH; try assumption.
    + apply (Permutation_cons_inv Hperm).
    + intros a b Ha Hb. apply Hsep; right; assumption.
Qed.

(** ** The insertion sort on a patch *)

Section SortFacts.

Variable fmt : Format.

(** The differences of the collection at hand, on which the comparator is a
    strict order that separates different elements and always returns. *)
Variable S : Difference Value -> Prop.
Hypothesis Less_returns : forall x y, S x -> S y ->
  exists b, dLess fmt x y = Ret b.
Hypothesis Less_irrefl : forall x, S x -> dLess fmt x x = Ret false.
Hypothesis Less_transitive : forall x y z, S x -> S y -> S z ->
  dLess fmt x y = Ret true -> dLess fmt y z = Ret true ->
  dLess fmt x z = Ret true.
Hypothesis Less_separates : forall x y, S x -> S y ->
  dLess fmt x y = Ret false -> dLess fmt y x = Ret false -> x = y.

Local Abbreviation precedes :=
  (fun d d' : Difference Value => dLess fmt d' d = Ret false).
Local Abbreviation mk := (fun p : Patch Value => mkPatchSort p fmt).
Local Abbreviation patches :=
  (PatchSort_sort_Interface Format Value Value_Equals Value_Less Path_Equals).

Lemma in_order_sorted (p : Patch Value) :
  in_order fmt p = true <-> StronglySorted precedes p.
Proof.
  induction p as [|d p IH]; simpl.
  - split; [constructor|reflexivity].
  - rewrite andb_true_iff, StronglySorted_cons, IH, forallb_forall,
      Forall_forall.
    split; intros [Hall Hp]; (split; [|exact Hp]); intros d' Hin.
    + apply list_elem_of_In in Hin. specialize (Hall d' Hin).
      destruct (dLess fmt d' d) as [[]|]; (reflexivity || discriminate).
    + apply list_elem_of_In in Hin. rewrite (Hall d' Hin). reflexivity.
Qed.

Lemma Less_asym (x y : Difference Value) :
  S x -> S y -> dLess fmt x y = Ret true -> dLess fmt y x = Ret false.
Proof using Less_returns Less_irrefl Less_transitive.
  intros Hx Hy Hxy.
  destruct (Less_returns y x Hy Hx) as [[] Hyx]; [|exact Hyx].
  pose proof (Less_transitive x y x Hx Hy Hx Hxy Hyx) as Hxx.
  rewrite (Less_irrefl x Hx) in Hxx. discriminate.
Qed.

Lemma Less_neg_trans (x y z : Difference Value) :
  S x -> S y -> S z ->
  dLess fmt x y = Ret false -> dLess fmt y z = Ret false ->
  dLess fmt x z = Ret false.
Proof using Less_returns Less_transitive Less_separates.
  intros Hx Hy Hz Hxy Hyz.
  destruct (Less_returns x z Hx Hz) as [[] Hxz]; [exfalso|exact Hxz].
  destruct (Less_returns y x Hy Hx) as [[] Hyx].
  - rewrite (Less_transitive y x z Hy Hx Hz Hyx Hxz) in Hyz. discriminate.
  - pose proof (Less_separates x y Hx Hy Hxy Hyx) as ->.
    rewrite Hxz in Hyz. discriminate.
Qed.

(** The methods of [PatchSort] on two neighbours. *)
Lemma Less_adjacent (pre post : Patch Value) (x y : Difference Value) :
  Less (sort_Interface := patches) (mk (pre ++ y :: x :: post))
    (Datatypes.S (length pre)) (length pre)
  = dLess fmt x y.
Proof.
  cbn [Less patches PatchSort_sort_Interface]. unfold PatchSort_Less. simpl.
  rewrite (list_lookup_middle pre (x :: post) y (length pre) eq_refl).
  replace (pre ++ y :: x :: post) with ((pre ++ [y]) ++ x :: post)
    by (rewrite <- app_assoc; reflexivity).
  rewrite (list_lookup_middle (pre ++ [y]) post x).
  - reflexivity.
  - rewrite length_app. simpl. lia.
Qed.

Lemma Swap_adjacent (pre post : Patch Value) (x y : Difference Value) :
  Swap (sort_Interface := patches) (mk (pre ++ y :: x :: post))
    (Datatypes.S (length pre)) (length pre)
  = Ret (mk (pre ++ x :: y :: post)).
Proof.
  cbn [Swap patches PatchSort_sort_Interface]. unfold PatchSort_Swap. simpl.
  rewrite (list_lookup_middle pre (x :: post) y (length pre) eq_refl).
  replace ((pre ++ y :: x :: post) !! Datatypes.S (length pre))
    with (Some x).
  - do 2 f_equal.
    replace (Datatypes.S (length pre)) with (length pre + 1)%nat by lia.
    rewrite insert_app_r. simpl.
    replace (length pre) with (length pre + 0)%nat at 1 by lia.
    rewrite insert_app_r. reflexivity.
  - replace (pre ++ y :: x :: post) with ((pre ++ [y]) ++ x :: post)
      by (rewrite <- app_assoc; reflexivity).
    symmetry. apply list_lookup_middle. rewrite length_app. simpl. lia.
Qed.

(** The inner loop carries the element at the end of a sorted prefix down
    to its place. *)
Lemma insertionSort_inner_sorted (pre : Patch Value) :
  forall (x : Difference Value) (post : Patch Value),
    (forall d, d ∈ pre -> S d) -> S x ->
    StronglySorted precedes pre ->
    exists pre1 pre2,
      pre = pre1 ++ pre2
      /\ insertionSort_inner (H := patches) (mk (pre ++ x :: post)) 0
           (length pre)
         = Ret (mk (pre1 ++ x :: pre2 ++ post))
      /\ StronglySorted precedes (pre1 ++ x :: pre2).
Proof using Less_returns Less_irrefl Less_transitive Less_separates.
  induction pre as [|y pre IH] using rev_ind; intros x post Hpre Hx Hsorted.
  - exists [], []. repeat split. repeat constructor.
  - assert (S y) as Hy by (apply Hpre, elem_of_app; right; left).
    assert (forall d, d ∈ pre -> S d) as Hpre'
      by (intros d Hd; apply Hpre, elem_of_app; left; exact Hd).
    apply StronglySorted_app in Hsorted as (Hpy & Hsorted' & _).
    rewrite length_app, Nat.add_1_r, <- app_assoc.
    cbn [insertionSort_inner app]. cbn [Nat.ltb Nat.leb].
    rewrite Less_adjacent.
    destruct (Less_returns x y Hx Hy) as [[] Hxy]; rewrite Hxy;
      cbn [go_bind].
    + rewrite Swap_adjacent. cbn [go_bind].
      destruct (IH x (y :: post) Hpre' Hx Hsorted')
        as (pre1 & pre2 & -> & Hrun & Hsorted1).
      exists pre1, (pre2 ++ [y]).
      split; [rewrite <- app_assoc; reflexivity|]. split.
      * rewrite Hrun. rewrite <- (app_assoc pre2 [y] post). reflexivity.
      * change (pre1 ++ x :: pre2 ++ [y])
          with (pre1 ++ (x :: pre2) ++ [y]).
        rewrite app_assoc. apply StronglySorted_app_2.
        -- intros d d' Hd ->%list_elem_of_singleton.
           apply elem_of_app in Hd as [Hd|Hd].
           ++ apply Hpy; [apply elem_of_app; left; exact Hd|left].
           ++ apply elem_of_cons in Hd as [->|Hd].
              ** apply Less_asym; assumption.
              ** apply Hpy; [apply elem_of_app; right; exact Hd|left].
        -- exact Hsorted1.
        -- repeat constructor.
    + exists (pre ++ [y]), []. split; [symmetry; apply app_nil_r|]. split.
      * rewrite <- app_assoc. reflexivity.
      * apply StronglySorted_app_2.
        -- intros d d' Hd ->%list_elem_of_singleton.
           apply elem_of_app in Hd as [Hd|Hd].
           ++ apply (Less_neg_trans x y d); auto.
              apply Hpy; [exact Hd|left].
           ++ apply list_elem_of_singleton in Hd as ->. exact Hxy.
        -- apply StronglySorted_app_2; [exact Hpy|exact Hsorted'|].
           repeat constructor.
        -- repeat constructor.
Qed.

(** The outer loop sorts what lies behind a sorted prefix into it. *)
Lemma insertionSort_outer_sorted (n : nat) :
  forall pre post : Patch Value,
    length post = n ->
    (forall d, d ∈ pre ++ post -> S d) ->
    StronglySorted precedes pre ->
    exists s,
      insertionSort_outer (H := patches) n (mk (pre ++ post)) 0 (length pre)
      = Ret (mk s)
      /\ s ≡ₚ pre ++ post
      /\ StronglySorted precedes s.
Proof using Less_returns Less_irrefl Less_transitive Less_separates.
  induction n as [|n IH]; intros pre post Hlen Hall Hsorted.
  - apply nil_length_inv in Hlen as ->. exists pre.
    rewrite app_nil_r. repeat split; [reflexivity|exact Hsorted].
  - destruct post as [|x post]; [discriminate|].
    injection Hlen as Hlen.
    destruct (insertionSort_inner_sorted pre x post)
      as (pre1 & pre2 & -> & Hrun & Hsorted1); [| |exact Hsorted|].
    { intros d Hd. apply Hall, elem_of_app. left. exact Hd. }
    { apply Hall, elem_of_app. right. left. }
    cbn [insertionSort_outer]. rewrite Hrun. cbn [go_bind].
    destruct (IH (pre1 ++ x :: pre2) post Hlen) as (s & Hs & Hperm & Hss).
    + intros d Hd. apply Hall. revert Hd.
      rewrite !elem_of_app, !elem_of_cons. tauto.
    + exact Hsorted1.
    + exists s. split; [|split; [|exact Hss]].
      * rewrite <- Hs. f_equal.
        -- rewrite <- app_assoc. reflexivity.
        -- rewrite !length_app. simpl. lia.
      * rewrite Hperm, <- app_assoc. simpl.
        rewrite <- !Permutation_middle, app_assoc. reflexivity.
Qed.

Lemma insertionSort_sorted (p : Patch Value) :
  (forall d, d ∈ p -> S d) ->
  exists s,
    insertionSort (H := patches) (mk p) 0 (length p) = Ret (mk s)
    /\ s ≡ₚ p
    /\ StronglySorted precedes s.
Proof using Less_returns Less_irrefl Less_transitive Less_separates.
  intros Hall. unfold insertionSort. destruct p as [|x p].
  - exists []. split; [reflexivity|]. split; [reflexivity|constructor].
  - replace (length (x :: p) - (0 + 1))%nat with (length p)
      by (simpl; lia).
    apply (insertionSort_outer_sorted (length p) [x] p eq_refl Hall).
    repeat constructor.
Qed.

End SortFacts.

(** On a collection on which the comparator always returns and is a strict
    order that separates different elements, the insertion sort returns the
    same sequence whatever order the input is in; that sequence is in
    order, and no other arrangement of the collection is. *)
Lemma insertionSort_one_result (fmt : Format) (p1 p2 : Patch Value) :
  p1 ≡ₚ p2 ->
  (forall x y, x ∈ p1 -> y ∈ p1 ->
     exists b,
       Difference_Less Value_Equals Value_Less Path_Equals fmt x y = Ret b) ->
  (forall x, x ∈ p1 ->
     Difference_Less Value_Equals Value_Less Path_Equals fmt x x
     = Ret false) ->
  (forall x y z, x ∈ p1 -> y ∈ p1 -> z ∈ p1 ->
     Difference_Less Value_Equals Value_Less Path_Equals fmt x y = Ret true ->
     Difference_Less Value_Equals Value_Less Path_Equals fmt y z = Ret true ->
     Difference_Less Value_Equals Value_Less Path_Equals fmt x z
     = Ret true) ->
  (forall x y, x ∈ p1 -> y ∈ p1 ->
     Difference_Less Value_Equals Value_Less Path_Equals fmt x y = Ret false ->
     Difference_Less Value_Equals Value_Less Path_Equals fmt y x = Ret false ->
     x = y) ->
  exists s : Patch Value,
    insertionSort
      (H := PatchSort_sort_Interface Format Value Value_Equals Value_Less
              Path_Equals)
      (mkPatchSort p1 fmt) 0 (length p1) = Ret (mkPatchSort s fmt)
    /\ insertionSort
         (H := PatchSort_sort_Interface Format Value Value_Equals Value_Less
                 Path_Equals)
         (mkPatchSort p2 fmt) 0 (length p2) = Ret (mkPatchSort s fmt)
    /\ s ≡ₚ p1
    /\ patch_in_order Value_Equals Value_Less Path_Equals fmt s = true
    /\ (forall s' : Patch Value,
          s' ≡ₚ p1 ->
          patch_in_order Value_Equals Value_Less Path_Equals fmt s' = true ->
          s' = s).
Proof.
  intros Hperm Hret Hirr Htrans Hsep.
  destruct (insertionSort_sorted fmt (fun d => d ∈ p1) Hret Hirr Htrans Hsep
              p1) as (s1 & Hrun1 & Hperm1 & Hsorted1); [auto|].
  destruct (insertionSort_sorted fmt (fun d => d ∈ p1) Hret Hirr Htrans Hsep
              p2) as (s2 & Hrun2 & Hperm2 & Hsorted2).
  { intros d Hd. rewrite Hperm. exact Hd. }
  apply in_order_sorted in Hsorted1, Hsorted2.
  assert (forall s' : Patch Value,
            s' ≡ₚ p1 -> in_order fmt s' = true -> s' = s1) as Huniq.
  { intros s' Hperm' Hsorted'.
    apply (in_order_unique fmt s' s1); try assumption.
    - rewrite Hperm', Hperm1. reflexivity.
    - intros x y Hx Hy. apply Hsep; rewrite <- Hperm'; assumption. }
  exists s1. repeat split; try assumption.
  rewrite Hrun2. do 2 f_equal. apply Huniq; [|exact Hsorted2].
  rewrite Hperm2, Hperm. reflexivity.
Qed.

(** ** The comparator as a strict order *)

(** The contract of the value store, as for the order of the parts, and
    that of [Path.Equals]: two paths it reports equal are the same path. *)
Hypothesis Equals_sym : forall f x y,
  Value_Equals f x y = Value_Equals f y x.
Hypothesis Equals_trans : forall f x y z,
  Value_Equals f x y = true -> Value_Equals f y z = true ->
  Value_Equals f x z = true.
Hypothesis Less_total : forall f x y,
  Value_Equals f x y = false -> Value_Less f y x = negb (Value_Less f x y).
Hypothesis Less_trans : forall f x y z,
  Value_Less f x y = true -> Value_Less f y z = true ->
  Value_Less f x z = true.
Hypothesis Less_compat : forall f x y z,
  Value_Equals f x y = true ->
  Value_Less f x z = Value_Less f y z /\ Value_Less f z x = Value_Less f z y.
Hypothesis Path_Equals_exact : forall p q : Path Value,
  Path_Equals p q = true -> p = q.

(** Paths all of whose parts are of one of the three variants. *)
Local Abbreviation variants :=
  (Forall (fun pp : PathPart Value => is_variant pp = true)).

Lemma pathIsLess_returns (fmt : Format) (p q : Path Value) :
  variants p -> variants q ->
  exists b, pathIsLess Value_Equals Value_Less fmt p q = Ret b.
Proof.
  rewrite pathIsLess_lex. intros Hp. revert q.
  induction Hp as [|a p Ha Hp IH]; intros q Hq;
    destruct Hq as [|b q Hb Hq]; simpl; eauto.
  destruct (cmp_variants _ _ Value_Equals Value_Less fmt a b Ha Hb)
    as [c ->].
  destruct (c =? -1); eauto. destruct (c =? 1); eauto.
Qed.

Lemma Difference_Less_returns (fmt : Format) (x y : Difference Value) :
  variants (DPath x) -> variants (DPath y) ->
  exists b, dLess fmt x y = Ret b.
Proof.
  intros Hx Hy. unfold Difference_Less.
  destruct (Path_Equals (DPath x) (DPath y)); eauto.
  apply pathIsLess_returns; assumption.
Qed.

Lemma pathIsLess_asym (fmt : Format) (p q : Path Value) :
  pathIsLess Value_Equals Value_Less fmt p q = Ret true ->
  pathIsLess Value_Equals Value_Less fmt q p = Ret true -> False.
Proof using Equals_sym Equals_trans Less_total Less_trans Less_compat.
  rewrite !pathIsLess_lex. apply lex_asym; assumption.
Qed.

Lemma Difference_Less_irrefl (fmt : Format) (x : Difference Value) :
  variants (DPath x) -> dLess fmt x x = Ret false.
Proof using Equals_sym Equals_trans Less_total Less_trans Less_compat.
  intros Hx. unfold Difference_Less.
  destruct (Path_Equals (DPath x) (DPath x)).
  - now rewrite Z.ltb_irrefl.
  - destruct (pathIsLess_returns fmt _ _ Hx Hx) as [[] Hb]; [|exact Hb].
    destruct (pathIsLess_asym fmt _ _ Hb Hb).
Qed.

Lemma Difference_Less_transitive (fmt : Format) (x y z : Difference Value) :
  dLess fmt x y = Ret true -> dLess fmt y z = Ret true ->
  dLess fmt x z = Ret true.
Proof using Equals_sym Equals_trans Less_total Less_trans Less_compat
  Path_Equals_exact.
  unfold Difference_Less.
  destruct (Path_Equals (DPath x) (DPath y)) eqn:Exy;
    destruct (Path_Equals (DPath y) (DPath z)) eqn:Eyz.
  - rewrite <- (Path_Equals_exact _ _ Eyz), Exy.
    intros [= H1] [= H2]. f_equal. lia.
  - rewrite (Path_Equals_exact _ _ Exy), Eyz. auto.
  - rewrite <- (Path_Equals_exact _ _ Eyz), Exy. auto.
  - intros Hxy Hyz.
    destruct (Path_Equals (DPath x) (DPath z)) eqn:Exz.
    + rewrite (Path_Equals_exact _ _ Exz) in Hxy.
      destruct (pathIsLess_asym fmt _ _ Hxy Hyz).
    + revert Hxy Hyz. rewrite !pathIsLess_lex. apply lex_trans; assumption.
Qed.

(** C6, as amended: on a collection that the comparator separates, any two
    different differences being ordered one way or the other, the sort is
    deterministic.  Whatever order the input is in, the insertion sort
    returns the same sequence, which is in order, and no other arrangement
    of the collection is in order. *)
Theorem patch_sort_deterministic (fmt : Format) (p1 p2 : Patch Value) :
  p1 ≡ₚ p2 ->
  (forall x, x ∈ p1 ->
     Forall (fun pp => is_variant pp = true) (DPath x)) ->
  (forall x y, x ∈ p1 -> y ∈ p1 ->
     Difference_Less Value_Equals Value_Less Path_Equals fmt x y = Ret false ->
     Difference_Less Value_Equals Value_Less Path_Equals fmt y x = Ret false ->
     x = y) ->
  exists s : Patch Value,
    insertionSort
      (H := PatchSort_sort_Interface Format Value Value_Equals Value_Less
              Path_Equals)
      (mkPatchSort p1 fmt) 0 (length p1) = Ret (mkPatchSort s fmt)
    /\ insertionSort
         (H := PatchSort_sort_Interface Format Value Value_Equals Value_Less
                 Path_Equals)
         (mkPatchSort p2 fmt) 0 (length p2) = Ret (mkPatchSort s fmt)
    /\ s ≡ₚ p1
    /\ patch_in_order Value_Equals Value_Less Path_Equals fmt s = true
    /\ (forall s' : Patch Value,
          s' ≡ₚ p1 ->
          patch_in_order Value_Equals Value_Less Path_Equals fmt s' = true ->
          s' = s).
Proof using Equals_sym Equals_trans Less_total Less_trans Less_compat
  Path_Equals_exact.
  intros Hperm Hvar Hsep.
  apply insertionSort_one_result; try assumption.
  - intros x y Hx Hy. apply Difference_Less_returns; auto.
  - intros x Hx. apply Difference_Less_irrefl; auto.
  - intros x y z _ _ _. apply Difference_Less_transitive.
Qed.

End PatchOrderFacts.

(** C6, as stated, fails: two modifications of one path that write
    different values are not separated by the comparator.  Both
    arrangements of the two are in order, and sorting returns each input as
    it was given: two orders of one collection sort to two sequences. *)
Lemma sort_depends_on_input_order :
  exists p1 p2 s1 s2 : Patch Z,
    p1 ≡ₚ p2
    /\ Sample.sort p1 = Ret s1 /\ Sample.sort p2 = Ret s2
    /\ patch_in_order Sample.Z_Equals Sample.Z_Less Sample.Path_same tt p1
       = true
    /\ patch_in_order Sample.Z_Equals Sample.Z_Less Sample.Path_same tt p2
       = true
    /\ s1 <> s2.
Proof.
  exists [Sample.mod_2; Sample.mod_3], [Sample.mod_3; Sample.mod_2],
    [Sample.mod_2; Sample.mod_3], [Sample.mod_3; Sample.mod_2].
  split; [apply perm_swap|].
  repeat split; try (vm_compute; reflexivity).
  discriminate.
Qed.

(** * Properties of the merge *)

Section MergeFacts.

Variable Context : Type.
Variable DoltDB : Type.
Variable Commit : Type.
Variable ValueReadWriter : Type.
Variable Merger : Type.
Variable RootValue : Type.
Variable Table : Type.
Variable Error : Type.

Variable DoltDB_ValueReadWriter : DoltDB -> ValueReadWriter.
Variable NewMerger :
  Context -> Commit -> Commit -> ValueReadWriter -> result Error Merger.
Variable GetRootValue : Commit -> result Error RootValue.
Variable UnionTableNames :
  Context -> RootValue -> RootValue -> result Error (list string).
Variable MergeTable :
  Merger -> Context -> string ->
  result Error (option Table * option MergeStats).
Variable PutTable :
  RootValue -> Context -> string -> Table -> result Error RootValue.
Variable HasTable : RootValue -> Context -> string -> result Error bool.
Variable RemoveTables :
  RootValue -> Context -> string -> result Error RootValue.

Local Abbreviation loop :=
  (mergeTables (Commit := Commit) MergeTable PutTable HasTable RemoveTables).
Local Abbreviation mergeCommits :=
  (MergeCommits DoltDB_ValueReadWriter NewMerger GetRootValue
     UnionTableNames MergeTable PutTable HasTable RemoveTables).
Local Abbreviation removed := (Some (MergeStats_of_Operation TableRemoved)).

(** A checked call, and what follows it. *)
Lemma proc_bind_try {A B : Type} (c : @Call Commit) (r : result Error A)
  (k : A -> Proc Commit RootValue Error B) :
  proc_bind Commit RootValue Error (proc_try Commit RootValue Error c r) k =
  match r with
  | Ok a => (c :: fst (k a), snd (k a))
  | Err e => ([c], Return (mkMergeResult None None (Some e)))
  end.
Proof.
  destruct r as [a|e]; simpl; [|reflexivity].
  destruct (k a) as [t o]. reflexivity.
Qed.

(** One turn of the loop, by what the calls of that turn return. *)
Lemma mergeTables_cons (ctx : Context) (merger : Merger) (n : string)
  (rest : list string) (root : RootValue)
  (stats : gmap string (option MergeStats)) :
  loop ctx merger (n :: rest) root stats =
  match MergeTable merger ctx n with
  | Err e => ([CallMergeTable n], Return (mkMergeResult None None (Some e)))
  | Ok (Some tbl, st) =>
      match PutTable root ctx n tbl with
      | Err e =>
          ([CallMergeTable n; CallPutTable n],
           Return (mkMergeResult None None (Some e)))
      | Ok root' =>
          let r := loop ctx merger rest root' (<[n := st]> stats) in
          (CallMergeTable n :: CallPutTable n :: fst r, snd r)
      end
  | Ok (None, st) =>
      match HasTable root ctx n with
      | Err e =>
          ([CallMergeTable n; CallHasTable n],
           Return (mkMergeResult None None (Some e)))
      | Ok false => ([CallMergeTable n; CallHasTable n], Panicked "?")
      | Ok true =>
          match RemoveTables root ctx n with
          | Err e =>
              ([CallMergeTable n; CallHasTable n; CallRemoveTables n],
               Return (mkMergeResult None None (Some e)))
          | Ok root' =>
              let r := loop ctx merger rest root' (<[n := removed]> stats) in
              (CallMergeTable n :: CallHasTable n :: CallRemoveTables n
                 :: fst r, snd r)
          end
      end
  end.
Proof.
  cbn [mergeTables]. rewrite proc_bind_try.
  destruct (MergeTable merger ctx n) as [[[tbl|] st]|e]; [| |reflexivity].
  - rewrite proc_bind_try.
    destruct (PutTable root ctx n tbl) as [root'|e]; reflexivity.
  - rewrite proc_bind_try.
    destruct (HasTable root ctx n) as [[]|e]; try reflexivity.
    rewrite proc_bind_try.
    destruct (RemoveTables root ctx n) as [root'|e]; reflexivity.
Qed.

(** The loop leaves the function only with an error and two nils. *)
Lemma mergeTables_Return (ctx : Context) (merger : Merger)
  (names : list string) (root : RootValue)
  (stats : gmap string (option MergeStats)) (r : MergeResult RootValue Error) :
  snd (loop ctx merger names root stats) = Return r ->
  exists e, r = mkMergeResult None None (Some e).
Proof.
  revert root stats. induction names as [|n rest IH]; intros root stats.
  - discriminate.
  - rewrite mergeTables_cons.
    destruct (MergeTable merger ctx n) as [[[tbl|] st]|e].
    + destruct (PutTable root ctx n tbl) as [root'|e]; simpl.
      * apply IH.
      * intros [= <-]. eauto.
    + destruct (HasTable root ctx n) as [[]|e]; simpl.
      * destruct (RemoveTables root ctx n) as [root'|e]; simpl.
        -- apply IH.
        -- intros [= <-]. eauto.
      * discriminate.
      * intros [= <-]. eauto.
    + simpl. intros [= <-]. eauto.
Qed.

(** C10: whenever [MergeCommits] returns an error, the root and the map of
    statistics it returns with it are both nil. *)
Theorem MergeCommits_error_returns_nil (ctx : Context) (ddb : DoltDB)
  (cm1 cm2 : Commit) (res : MergeResult RootValue Error) :
  snd (mergeCommits ctx ddb cm1 cm2) = Ret res ->
  res_err res <> None ->
  res_root res = None /\ res_stats res = None.
Proof.
  unfold MergeCommits, MergeCommits_body.
  rewrite proc_bind_try.
  destruct (NewMerger ctx cm1 cm2 (DoltDB_ValueReadWriter ddb))
    as [merger|e]; [|intros [= <-]; auto].
  rewrite proc_bind_try.
  destruct (GetRootValue cm1) as [root|e]; [|intros [= <-]; auto].
  rewrite proc_bind_try.
  destruct (GetRootValue cm2) as [rv|e]; [|intros [= <-]; auto].
  rewrite proc_bind_try.
  destruct (UnionTableNames ctx root rv) as [names|e];
    [|intros [= <-]; auto].
  pose proof (mergeTables_Return ctx merger names root ∅) as HR.
  unfold proc_bind.
  destruct (loop ctx merger names root ∅) as [t [[root' stats']|r|msg]];
    simpl in *.
  - intros [= <-]. simpl. congruence.
  - intros [= <-]. destruct (HR r eq_refl) as [e ->]. auto.
  - discriminate.
Qed.

(** ** Removal of a table *)

(** The roots are maps from names to tables: putting or removing one table
    leaves the presence of every other table as it was, and a table that
    was removed is absent. *)
Hypothesis PutTable_other : forall r ctx n tbl r' t,
  PutTable r ctx n tbl = Ok r' -> n <> t ->
  HasTable r' ctx t = HasTable r ctx t.
Hypothesis RemoveTables_other : forall r ctx n r' t,
  RemoveTables r ctx n = Ok r' -> n <> t ->
  HasTable r' ctx t = HasTable r ctx t.
Hypothesis RemoveTables_same : forall r ctx t r',
  RemoveTables r ctx t = Ok r' -> HasTable r' ctx t = Ok false.

(** Once the table is removed and recorded, the rest of the loop, if it
    runs to its end, leaves both as they are. *)
Lemma mergeTables_keeps_removed (ctx : Context) (merger : Merger)
  (t : string) (st : option MergeStats) (names : list string)
  (root root' : RootValue) (stats stats' : gmap string (option MergeStats)) :
  MergeTable merger ctx t = Ok (None, st) ->
  HasTable root ctx t = Ok false ->
  stats !! t = Some removed ->
  snd (loop ctx merger names root stats) = Continue (root', stats') ->
  HasTable root' ctx t = Ok false /\ stats' !! t = Some removed.
Proof using PutTable_other RemoveTables_other.
  intros Hmt. revert root stats.
  induction names as [|n rest IH]; intros root stats Hhas Hst.
  - simpl. intros [= <- <-]. auto.
  - rewrite mergeTables_cons.
    destruct (decide (n = t)) as [->|Hne].
    + rewrite Hmt, Hhas. discriminate.
    + destruct (MergeTable merger ctx n) as [[[tbl|] st']|e];
        [| |discriminate].
      * destruct (PutTable root ctx n tbl) as [r1|e] eqn:Hput;
          [|discriminate]. simpl.
        apply IH.
        -- rewrite (PutTable_other _ _ _ _ _ t Hput Hne). exact Hhas.
        -- rewrite lookup_insert_ne by exact Hne. exact Hst.
      * destruct (HasTable root ctx n) as [[]|e]; try discriminate.
        destruct (RemoveTables root ctx n) as [r1|e] eqn:Hrm;
          [|discriminate]. simpl.
        apply IH.
        -- rewrite (RemoveTables_other _ _ _ _ t Hrm Hne). exact Hhas.
        -- rewrite lookup_insert_ne by exact Hne. exact Hst.
Qed.

(** A table of the list that is present and has no merged table is removed
    and recorded by a loop that runs to its end. *)
Lemma mergeTables_removes (ctx : Context) (merger : Merger)
  (t : string) (st : option MergeStats) (names : list string)
  (root root' : RootValue) (stats stats' : gmap string (option MergeStats)) :
  MergeTable merger ctx t = Ok (None, st) ->
  t ∈ names ->
  HasTable root ctx t = Ok true ->
  snd (loop ctx merger names root stats) = Continue (root', stats') ->
  HasTable root' ctx t = Ok false /\ stats' !! t = Some removed.
Proof using PutTable_other RemoveTables_other RemoveTables_same.
  intros Hmt. revert root stats.
  induction names as [|n rest IH]; intros root stats Hin Hhas.
  - apply elem_of_nil in Hin. contradiction.
  - rewrite mergeTables_cons.
    destruct (decide (n = t)) as [->|Hne].
    + rewrite Hmt, Hhas.
      destruct (RemoveTables root ctx t) as [r1|e] eqn:Hrm; [|discriminate].
      simpl.
      apply (mergeTables_keeps_removed ctx merger t st); try assumption.
      * apply (RemoveTables_same _ _ _ _ Hrm).
      * apply lookup_insert_eq.
    + apply elem_of_cons in Hin as [E|Hin]; [congruence|].
      destruct (MergeTable merger ctx n) as [[[tbl|] st']|e];
        [| |discriminate].
      * destruct (PutTable root ctx n tbl) as [r1|e] eqn:Hput;
          [|discriminate]. simpl.
        apply IH; [exact Hin|].
        rewrite (PutTable_other _ _ _ _ _ t Hput Hne). exact Hhas.
      * destruct (HasTable root ctx n) as [[]|e]; try discriminate.
        destruct (RemoveTables root ctx n) as [r1|e] eqn:Hrm;
          [|discriminate]. simpl.
        apply IH; [exact Hin|].
        rewrite (RemoveTables_other _ _ _ _ t Hrm Hne). exact Hhas.
Qed.

(** C8: a table of the union for which [MergeTable] returns no merged
    table, and which the root of [cm1] has, is recorded with statistics
    whose [Operation] is [TableRemoved] and whose counts are all 0, and is
    absent from the root that [MergeCommits] returns when the merge runs to
    its end. *)
Theorem MergeCommits_removes_table (ctx : Context) (ddb : DoltDB)
  (cm1 cm2 : Commit) (merger : Merger) (root1 root2 : RootValue)
  (names : list string) (t : string) (st : option MergeStats)
  (root' : RootValue) (stats' : gmap string (option MergeStats)) :
  NewMerger ctx cm1 cm2 (DoltDB_ValueReadWriter ddb) = Ok merger ->
  GetRootValue cm1 = Ok root1 ->
  GetRootValue cm2 = Ok root2 ->
  UnionTableNames ctx root1 root2 = Ok names ->
  t ∈ names ->
  MergeTable merger ctx t = Ok (None, st) ->
  HasTable root1 ctx t = Ok true ->
  snd (mergeCommits ctx ddb cm1 cm2)
  = Ret (mkMergeResult (Some root') (Some stats') None) ->
  (exists s : MergeStats,
     stats' !! t = Some (Some s)
     /\ Operation s = TableRemoved
     /\ Adds s = 0 /\ Deletes s = 0 /\ Modifications s = 0
     /\ Conflicts s = 0)
  /\ HasTable root' ctx t = Ok false.
Proof using PutTable_other RemoveTables_other RemoveTables_same.
  intros Hnm Hr1 Hr2 Hun Hin Hmt Hhas.
  unfold MergeCommits, MergeCommits_body.
  rewrite proc_bind_try, Hnm. cbn [fst snd].
  rewrite proc_bind_try, Hr1. cbn [fst snd].
  rewrite proc_bind_try, Hr2. cbn [fst snd].
  rewrite proc_bind_try, Hun. cbn [fst snd].
  pose proof (fun r s =>
    mergeTables_removes ctx merger t st names root1 r ∅ s Hmt Hin Hhas)
    as HR.
  pose proof (mergeTables_Return ctx merger names root1 ∅) as HE.
  unfold proc_bind.
  destruct (loop ctx merger names root1 ∅) as [tr [[r s]|r|msg]];
    simpl in *.
  - intros [= <- <-].
    destruct (HR r s eq_refl) as [H1 H2]. split; [|exact H1].
    exists (MergeStats_of_Operation TableRemoved).
    split; [exact H2|]. split; [reflexivity|].
    split; [reflexivity|]. split; [reflexivity|].
    split; reflexivity.
  - intros [= ->]. destruct (HE _ eq_refl) as [e [=]].
  - discriminate.
Qed.

End MergeFacts.

(** * The definitions at work on the sample store *)

(** Integers under [=?] and [<?] meet the contract of the value store. *)
Lemma Sample_Equals_sym (f : unit) (x y : Z) :
  Sample.Z_Equals f x y = Sample.Z_Equals f y x.
Proof. apply Z.eqb_sym. Qed.

Lemma Sample_Equals_trans (f : unit) (x y z : Z) :
  Sample.Z_Equals f x y = true -> Sample.Z_Equals f y z = true ->
  Sample.Z_Equals f x z = true.
Proof. unfold Sample.Z_Equals. lia. Qed.

Lemma Sample_Less_total (f : unit) (x y : Z) :
  Sample.Z_Equals f x y = false ->
  Sample.Z_Less f y x = negb (Sample.Z_Less f x y).
Proof.
  unfold Sample.Z_Equals, Sample.Z_Less.
  destruct (Z.ltb_spec x y), (Z.ltb_spec y x), (Z.eqb_spec x y);
    simpl; (reflexivity || lia).
Qed.

Lemma Sample_Less_trans (f : unit) (x y z : Z) :
  Sample.Z_Less f x y = true -> Sample.Z_Less f y z = true ->
  Sample.Z_Less f x z = true.
Proof. unfold Sample.Z_Less. lia. Qed.

Lemma Sample_Less_compat (f : unit) (x y z : Z) :
  Sample.Z_Equals f x y = true ->
  Sample.Z_Less f x z = Sample.Z_Less f y z
  /\ Sample.Z_Less f z x = Sample.Z_Less f z y.
Proof.
  unfold Sample.Z_Equals. intros ->%Z.eqb_eq. split; reflexivity.
Qed.

(** The sample roots are maps, as the contract of the roots asks. *)
Lemma Sample_PutTable_other (r : Sample.Root) (ctx : unit) (n : string)
  (tbl : Z) (r' : Sample.Root) (t : string) :
  Sample.PutTable r ctx n tbl = Ok r' -> n <> t ->
  Sample.HasTable r' ctx t = Sample.HasTable r ctx t.
Proof.
  intros [= <-] Hne. unfold Sample.HasTable.
  now rewrite lookup_insert_ne.
Qed.

Lemma Sample_RemoveTables_other (r : Sample.Root) (ctx : unit) (n : string)
  (r' : Sample.Root) (t : string) :
  Sample.RemoveTables r ctx n = Ok r' -> n <> t ->
  Sample.HasTable r' ctx t = Sample.HasTable r ctx t.
Proof.
  intros [= <-] Hne. unfold Sample.HasTable.
  now rewrite lookup_delete_ne.
Qed.

Lemma Sample_RemoveTables_same (r : Sample.Root) (ctx : unit) (t : string)
  (r' : Sample.Root) :
  Sample.RemoveTables r ctx t = Ok r' -> Sample.HasTable r' ctx t = Ok false.
Proof.
  intros [= <-]. unfold Sample.HasTable. rewrite lookup_delete_eq.
  reflexivity.
Qed.

(** Two sample paths that are exactly equal are the same path. *)
Lemma Sample_Path_same_exact (p q : Path Z) :
  Sample.Path_same p q = true -> p = q.
Proof.
  revert q; induction p as [|a p IH]; intros [|b q]; simpl;
    try discriminate; [reflexivity|].
  intros [Hab Hpq]%andb_prop. f_equal; [|apply IH, Hpq].
  destruct a as [[n]|[i k]|[h k]|], b as [[n']|[i' k']|[h' k']|];
    simpl in Hab; try discriminate; [| | |reflexivity].
  - apply String.eqb_eq in Hab as ->. reflexivity.
  - apply andb_prop in Hab as [->%Z.eqb_eq ->%Bool.eqb_prop]. reflexivity.
  - apply andb_prop in Hab as [Hh ->%Bool.eqb_prop].
    apply Z.eqb_eq, bytes_Compare_eq in Hh as ->. reflexivity.
Qed.

(** C1 at work: among an addition, a removal and a modification of one
    field, the removal at position 1 is before the modification at
    position 2. *)
Lemma Less_same_path_by_change_type_witness :
  let ps := mkPatchSort [Sample.add_4; Sample.rem_1; Sample.mod_3] tt in
  (patch ps !! 1%nat = Some Sample.rem_1
   /\ patch ps !! 2%nat = Some Sample.mod_3
   /\ Sample.Path_same (DPath Sample.rem_1) (DPath Sample.mod_3) = true
   /\ Sample.Path_same (DPath Sample.mod_3) (DPath Sample.rem_1) = true)
  /\ PatchSort_Less Sample.Z_Equals Sample.Z_Less Sample.Path_same ps 1 2
     = Ret true
  /\ PatchSort_Less Sample.Z_Equals Sample.Z_Less Sample.Path_same ps 2 1
     = Ret false.
Proof.
  split; [repeat split|].
  apply (Less_same_path_by_change_type unit Z Sample.Z_Equals Sample.Z_Less
           Sample.Path_same
           (mkPatchSort [Sample.add_4; Sample.rem_1; Sample.mod_3] tt)
           1 2 Sample.rem_1 Sample.mod_3);
    [reflexivity|reflexivity|reflexivity|reflexivity|].
  left. split; reflexivity.
Defined.

(** C3 at work: at index 5, and at one hash, the part into the key is
    before the part into the value. *)
Lemma IntoKey_breaks_ties_witness :
  pathPartCompare Sample.Z_Equals Sample.Z_Less tt
    (PIndex (mkIndexPath 5 true)) (PIndex (mkIndexPath 5 false)) = Ret (-1)
  /\ pathPartCompare Sample.Z_Equals Sample.Z_Less tt
       (PHashIndex (mkHashIndexPath [x01; xff] false))
       (PHashIndex (mkHashIndexPath [x01; xff] true)) = Ret 1.
Proof.
  destruct (IntoKey_breaks_ties unit Z Sample.Z_Equals Sample.Z_Less tt)
    as [Hindex Hhash].
  split.
  - apply (Hindex (mkIndexPath 5 true) (mkIndexPath 5 false));
      reflexivity.
  - apply (Hhash (mkHashIndexPath [x01; xff] false)
                 (mkHashIndexPath [x01; xff] true)); reflexivity.
Defined.

(** C4 at work: the path to field a is before the path to its field b, and
    two paths that part at an index are ordered by that index. *)
Lemma pathIsLess_prefix_and_first_difference_witness :
  (forall f x y, Sample.Z_Equals f x y = Sample.Z_Equals f y x)
  /\ pathIsLess Sample.Z_Equals Sample.Z_Less tt
       [Sample.field "a"] [Sample.field "a"; Sample.field "b"] = Ret true
  /\ pathIsLess Sample.Z_Equals Sample.Z_Less tt
       [Sample.field "a"; Sample.field "b"] [Sample.field "a"] = Ret false
  /\ pathIsLess Sample.Z_Equals Sample.Z_Less tt
       [Sample.field "a"; PIndex (mkIndexPath 2 false); Sample.field "x"]
       [Sample.field "a"; PIndex (mkIndexPath 1 false)] = Ret false.
Proof.
  split; [exact Sample_Equals_sym|].
  destruct (pathIsLess_prefix_and_first_difference unit Z
              Sample.Z_Equals Sample.Z_Less Sample_Equals_sym tt)
    as [Hprefix Hfirst].
  split; [|split].
  - apply (Hprefix [Sample.field "a"]
                   [Sample.field "a"; Sample.field "b"]); [simpl; lia|].
    intros [|i] a b; [intros [= <-] [= <-]; reflexivity|discriminate].
  - apply (Hprefix [Sample.field "a"]
                   [Sample.field "a"; Sample.field "b"]); [simpl; lia|].
    intros [|i] a b; [intros [= <-] [= <-]; reflexivity|discriminate].
  - apply (Hfirst [Sample.field "a"] [Sample.field "a"]
                  [Sample.field "x"] []
                  (PIndex (mkIndexPath 2 false))
                  (PIndex (mkIndexPath 1 false)) 1).
    + constructor; [reflexivity|constructor].
    + reflexivity.
    + lia.
Defined.

(** C5 at work: three parts in a row, one of each variant, and three
    paths. *)
Lemma patch_order_strict_weak_witness :
  ((forall f x y, Sample.Z_Equals f x y = Sample.Z_Equals f y x)
   /\ (forall f x y z,
         Sample.Z_Equals f x y = true -> Sample.Z_Equals f y z = true ->
         Sample.Z_Equals f x z = true)
   /\ (forall f x y,
         Sample.Z_Equals f x y = false ->
         Sample.Z_Less f y x = negb (Sample.Z_Less f x y))
   /\ (forall f x y z,
         Sample.Z_Less f x y = true -> Sample.Z_Less f y z = true ->
         Sample.Z_Less f x z = true)
   /\ (forall f x y z,
         Sample.Z_Equals f x y = true ->
         Sample.Z_Less f x z = Sample.Z_Less f y z
         /\ Sample.Z_Less f z x = Sample.Z_Less f z y))
  /\ pathPartCompare Sample.Z_Equals Sample.Z_Less tt
       (PIndex (mkIndexPath 1 true)) (PIndex (mkIndexPath 3 true))
     = Ret (-1)
  /\ pathIsLess Sample.Z_Equals Sample.Z_Less tt
       [Sample.field "a"] [PIndex (mkIndexPath 2 false)] = Ret true.
Proof.
  split.
  { repeat split;
      [exact Sample_Equals_sym|exact Sample_Equals_trans
      |exact Sample_Less_total|exact Sample_Less_trans
      |apply Sample_Less_compat; assumption
      |apply Sample_Less_compat; assumption]. }
  destruct (patch_order_strict_weak unit Z Sample.Z_Equals Sample.Z_Less
              Sample_Equals_sym Sample_Equals_trans Sample_Less_total
              Sample_Less_trans Sample_Less_compat tt)
    as (Htrans & _ & _ & _ & Hptrans & _).
  split.
  - apply (Htrans _ (PIndex (mkIndexPath 2 false))); reflexivity.
  - apply (Hptrans _ [Sample.field "a"; Sample.field "b"]); reflexivity.
Defined.

(** C9 at work: a field against a hash index. *)
Lemma pathPartCompare_total_witness :
  is_variant (Sample.field "a") = true
  /\ is_variant (PHashIndex (Value := Z) (mkHashIndexPath [x00] true)) = true
  /\ exists r,
       pathPartCompare Sample.Z_Equals Sample.Z_Less tt (Sample.field "a")
         (PHashIndex (mkHashIndexPath [x00] true)) = Ret r
       /\ (r = -1 \/ r = 0 \/ r = 1).
Proof.
  split; [reflexivity|split; [reflexivity|]].
  apply (pathPartCompare_total unit Z Sample.Z_Equals Sample.Z_Less tt
           (Sample.field "a") (PHashIndex (mkHashIndexPath [x00] true)));
    reflexivity.
Defined.

(** C6 as amended, at work: a removal, a modification and an addition at
    one field and an addition below it, given in two orders, sort to one
    sequence. *)
Lemma patch_sort_deterministic_witness :
  let p1 := [Sample.add_b; Sample.add_4; Sample.mod_3; Sample.rem_1] in
  let p2 := [Sample.mod_3; Sample.rem_1; Sample.add_b; Sample.add_4] in
  p1 ≡ₚ p2
  /\ exists s : Patch Z,
       Sample.sort p1 = Ret s /\ Sample.sort p2 = Ret s
       /\ s = [Sample.rem_1; Sample.mod_3; Sample.add_4; Sample.add_b].
Proof.
  assert ([Sample.add_b; Sample.add_4; Sample.mod_3; Sample.rem_1]
          ≡ₚ [Sample.mod_3; Sample.rem_1; Sample.add_b; Sample.add_4])
    as Hperm.
  { apply (Permutation_app_comm [Sample.add_b; Sample.add_4]
             [Sample.mod_3; Sample.rem_1]). }
  split; [exact Hperm|].
  destruct (patch_sort_deterministic unit Z Sample.Z_Equals Sample.Z_Less
              Sample.Path_same
              Sample_Equals_sym Sample_Equals_trans Sample_Less_total
              Sample_Less_trans Sample_Less_compat Sample_Path_same_exact tt
              [Sample.add_b; Sample.add_4; Sample.mod_3; Sample.rem_1]
              [Sample.mod_3; Sample.rem_1; Sample.add_b; Sample.add_4]
              Hperm)
    as (s & Hs1 & Hs2 & _ & _ & Huniq).
  - intros x Hx.
    repeat (apply elem_of_cons in Hx as [->|Hx]);
      try (apply elem_of_nil in Hx; contradiction);
      repeat constructor.
  - intros x y Hx Hy.
    repeat (apply elem_of_cons in Hx as [->|Hx]);
      try (apply elem_of_nil in Hx; contradiction);
      repeat (apply elem_of_cons in Hy as [->|Hy]);
      try (apply elem_of_nil in Hy; contradiction);
      vm_compute; intros H1 H2; (reflexivity || discriminate).
  - exists s.
    change (Sample.sort
              [Sample.add_b; Sample.add_4; Sample.mod_3; Sample.rem_1])
      with (go_bind
              (insertionSort
                 (H := PatchSort_sort_Interface unit Z Sample.Z_Equals
                         Sample.Z_Less Sample.Path_same)
                 (mkPatchSort
                    [Sample.add_b; Sample.add_4; Sample.mod_3; Sample.rem_1]
                    tt) 0 4)
              (fun ps => Ret (patch ps))).
    change (Sample.sort
              [Sample.mod_3; Sample.rem_1; Sample.add_b; Sample.add_4])
      with (go_bind
              (insertionSort
                 (H := PatchSort_sort_Interface unit Z Sample.Z_Equals
                         Sample.Z_Less Sample.Path_same)
                 (mkPatchSort
                    [Sample.mod_3; Sample.rem_1; Sample.add_b; Sample.add_4]
                    tt) 0 4)
              (fun ps => Ret (patch ps))).
    simpl length in Hs1, Hs2. rewrite Hs1, Hs2.
    split; [reflexivity|]. split; [reflexivity|].
    symmetry. apply Huniq; [|vm_compute; reflexivity].
    exact (reverse_Permutation
             [Sample.add_b; Sample.add_4; Sample.mod_3; Sample.rem_1]).
Defined.

(** C7 fails on the code.  With tables a and b in the union, a merged and
    b failing to merge, [PutTable] has been called for a before [MergeTable]
    is called for b; when both tables merge, a is put and only then is t
    merged. *)
Theorem MergeCommits_applies_before_all_validated :
  fst (Sample.merge ["a"; "b"] Sample.MergeTable_a_only)
  = [CallNewMerger; CallGetRootValue Sample.cm1; CallGetRootValue Sample.cm2;
     CallUnionTableNames;
     CallMergeTable "a"; CallPutTable "a"; CallMergeTable "b"]
  /\ validated_before_applied Sample.MergeTable_a_only tt tt ["a"; "b"] []
       (fst (Sample.merge ["a"; "b"] Sample.MergeTable_a_only)) = false
  /\ fst (Sample.merge ["a"; "t"] Sample.MergeTable_t_removed)
     = [CallNewMerger; CallGetRootValue Sample.cm1;
        CallGetRootValue Sample.cm2; CallUnionTableNames;
        CallMergeTable "a"; CallPutTable "a";
        CallMergeTable "t"; CallHasTable "t"; CallRemoveTables "t"]
  /\ validated_before_applied Sample.MergeTable_t_removed tt tt ["a"; "t"]
       [] (fst (Sample.merge ["a"; "t"] Sample.MergeTable_t_removed))
     = false.
Proof.
  repeat split; vm_compute; reflexivity.
Qed.

(** C8 at work: table t of the first commit has no merged table; the merge
    of tables a and t records its removal and returns a root without it. *)
Lemma MergeCommits_removes_table_witness :
  let run := Sample.merge ["a"; "t"] Sample.MergeTable_t_removed in
  let root' : Sample.Root := {[ "a" := 7 ]} in
  let stats' : gmap string (option MergeStats) :=
    <["t" := Some (mkMergeStats TableRemoved 0 0 0 0)]>
      (<["a" := Some (mkMergeStats TableModified 0 0 1 0)]> ∅) in
  ("t" ∈ ["a"; "t"]
   /\ Sample.MergeTable_t_removed tt tt "t" = Ok (None, None)
   /\ Sample.HasTable Sample.cm1 tt "t" = Ok true
   /\ snd run = Ret (mkMergeResult (Some root') (Some stats') None))
  /\ (exists s : MergeStats,
        stats' !! "t" = Some (Some s)
        /\ Operation s = TableRemoved
        /\ Adds s = 0 /\ Deletes s = 0 /\ Modifications s = 0
        /\ Conflicts s = 0)
  /\ Sample.HasTable root' tt "t" = Ok false.
Proof.
  assert (snd (Sample.merge ["a"; "t"] Sample.MergeTable_t_removed)
          = Ret (mkMergeResult (Some ({[ "a" := 7 ]} : Sample.Root))
                   (Some (<["t" := Some (mkMergeStats TableRemoved 0 0 0 0)]>
                            (<["a" := Some (mkMergeStats TableModified 0 0 1 0)]>
                               ∅)))
                   None)) as Hrun.
  { vm_compute. reflexivity. }
  split.
  { split; [set_solver|].
    split; [reflexivity|]. split; [reflexivity|exact Hrun]. }
  apply (MergeCommits_removes_table unit unit Sample.Root unit unit
           Sample.Root Z string
           (fun _ : unit => tt) Sample.NewMerger Sample.GetRootValue
           (Sample.UnionTableNames ["a"; "t"]) Sample.MergeTable_t_removed
           Sample.PutTable Sample.HasTable Sample.RemoveTables
           Sample_PutTable_other Sample_RemoveTables_other
           Sample_RemoveTables_same
           tt tt Sample.cm1 Sample.cm2 tt Sample.cm1 Sample.cm2
           ["a"; "t"] "t" None);
    first [reflexivity | exact Hrun | set_solver].
Defined.

(** C10 at work: the merge of table b fails after table a was put; what
    comes back is the error and two nils. *)
Lemma MergeCommits_error_returns_nil_witness :
  let res : MergeResult Sample.Root string :=
    mkMergeResult None None (Some "schema") in
  (snd (Sample.merge ["a"; "b"] Sample.MergeTable_a_only) = Ret res
   /\ res_err res <> None)
  /\ res_root res = None /\ res_stats res = None.
Proof.
  split; [split; [vm_compute; reflexivity|discriminate]|].
  apply (MergeCommits_error_returns_nil unit unit Sample.Root unit unit
           Sample.Root Z string
           (fun _ : unit => tt) Sample.NewMerger Sample.GetRootValue
           (Sample.UnionTableNames ["a"; "b"]) Sample.MergeTable_a_only
           Sample.PutTable Sample.HasTable Sample.RemoveTables
           tt tt Sample.cm1 Sample.cm2);
    [vm_compute; reflexivity|discriminate].
Defined.

(** * Further properties of the patch order *)

Lemma string_compare_zero (s t : string) : string_compare s t = 0 <-> s = t.
Proof.
  unfold string_compare, string_eq.
  destruct (String.eqb_spec s t) as [E|E]; [tauto|].
  destruct (string_lt s t); split; (lia || contradiction).
Qed.

Lemma IntoKey_compare_zero (k1 k2 : bool) :
  IntoKey_compare k1 k2 = 0 <-> k1 = k2.
Proof.
  destruct k1, k2; cbv; split; (reflexivity || discriminate).
Qed.

Lemma bytes_Compare_zero (a b : list byte) : bytes_Compare a b = 0 <-> a = b.
Proof.
  split; [apply bytes_Compare_eq|intros ->; apply bytes_Compare_refl].
Qed.

Section PathExtras.

Variable Format : Type.
Variable Value : Type.
Variable Value_Equals : Format -> Value -> Value -> bool.
Variable Value_Less : Format -> Value -> Value -> bool.

Local Abbreviation cmp := (pathPartCompare Value_Equals Value_Less).
Local Abbreviation isLess := (pathIsLess Value_Equals Value_Less).
Local Abbreviation lexLess := (path_lex Value_Equals Value_Less).
Local Abbreviation variants :=
  (Forall (fun pp : PathPart Value => is_variant pp = true)).

(** A comparison of two parts panics only on a nil part. *)
Lemma cmp_Panic_inv (format : Format) (a b : PathPart Value) (msg : string) :
  cmp format a b = Panic msg ->
  msg = "unreachable" /\ (is_variant a = false \/ is_variant b = false).
Proof.
  destruct a as [x|x|x|], b as [y|y|y|];
    rewrite ?cmp_Field_Field, ?cmp_Index_Index, ?cmp_HashIndex_HashIndex;
    simpl; try discriminate; intros [= <-]; auto.
Qed.

(** X1: [pathIsLess] never reads [p2] outside its bounds.  If it panics at
    all, it does so with the message of the type switches, and one of the
    two paths holds a part that is of none of the three variants. *)
Theorem pathIsLess_panics_only_on_nil_part (format : Format)
  (p1 p2 : Path Value) (msg : string) :
  isLess format p1 p2 = Panic msg ->
  msg = "unreachable"
  /\ exists pp, (pp ∈ p1 \/ pp ∈ p2) /\ is_variant pp = false.
Proof.
  rewrite pathIsLess_lex. revert p2.
  induction p1 as [|a p1 IH]; intros [|b p2]; simpl; try discriminate.
  destruct (cmp format a b) as [c|m] eqn:Hab.
  - destruct (c =? -1); [discriminate|].
    destruct (c =? 1); [discriminate|].
    intros H. destruct (IH _ H) as (Hmsg & pp & Hin & Hpp).
    split; [exact Hmsg|]. exists pp. split; [|exact Hpp].
    destruct Hin; [left|right]; right; assumption.
  - intros [= <-]. destruct (cmp_Panic_inv _ _ _ _ Hab) as [Hmsg [Hv|Hv]].
    + split; [exact Hmsg|]. exists a. split; [left; left|exact Hv].
    + split; [exact Hmsg|]. exists b. split; [right; left|exact Hv].
Qed.

(** X2: two parts compare equal exactly when they are of the same variant
    and agree on their fields: the same name; indices equal under the
    format and the same IntoKey; the same hash and the same IntoKey. *)
Theorem pathPartCompare_zero_iff (format : Format) (a b : PathPart Value) :
  cmp format a b = Ret 0 <->
  match a, b with
  | PField x, PField y => Name x = Name y
  | PIndex x, PIndex y =>
      Value_Equals format (Index x) (Index y) = true
      /\ IntoKey x = IntoKey y
  | PHashIndex x, PHashIndex y =>
      Hash x = Hash y /\ HIntoKey x = HIntoKey y
  | _, _ => False
  end.
Proof.
  destruct a as [x|x|x|], b as [y|y|y|];
    rewrite ?cmp_Field_Field, ?cmp_Index_Index, ?cmp_HashIndex_HashIndex;
    try (simpl; split; [discriminate|contradiction]).
  - rewrite <- string_compare_zero. split; [intros [= H]|intros ->]; auto.
  - rewrite <- (vcmp_zero _ _ Value_Equals Value_Less),
      <- IntoKey_compare_zero, <- lex_zero.
    split; [intros [= H]|intros ->]; auto.
  - rewrite <- bytes_Compare_zero, <- IntoKey_compare_zero, <- lex_zero.
    split; [intros [= H]|intros ->]; auto.
Qed.

(** ** Under a reflexive equality of values *)

Hypothesis Equals_refl : forall f x, Value_Equals f x x = true.

Lemma cmp_refl (format : Format) (a : PathPart Value) :
  is_variant a = true -> cmp format a a = Ret 0.
Proof using Equals_refl.
  intros Ha. apply pathPartCompare_zero_iff.
  destruct a as [x|x|x|]; try discriminate; auto.
Qed.

(** X3: no path is less than itself, and no part compares unequal to
    itself, where values are equal to themselves and the parts are of the
    three variants. *)
Theorem pathIsLess_irreflexive (format : Format) (p : Path Value) :
  Forall (fun pp => is_variant pp = true) p ->
  pathIsLess Value_Equals Value_Less format p p = Ret false
  /\ Forall
       (fun pp => pathPartCompare Value_Equals Value_Less format pp pp = Ret 0)
       p.
Proof using Equals_refl.
  intros Hp. rewrite pathIsLess_lex. induction Hp as [|a p Ha Hp [IH1 IH2]].
  - split; [reflexivity|constructor].
  - simpl. rewrite (cmp_refl format a Ha). simpl.
    split; [exact IH1|]. constructor; [apply cmp_refl, Ha|exact IH2].
Qed.

End PathExtras.

Section PatchExtras.

Variable Format : Type.
Variable Value : Type.
Variable Value_Equals : Format -> Value -> Value -> bool.
Variable Value_Less : Format -> Value -> Value -> bool.
Variable Path_Equals : Path Value -> Path Value -> bool.

Local Abbreviation cmp := (pathPartCompare Value_Equals Value_Less).
Local Abbreviation isLess := (pathIsLess Value_Equals Value_Less).
Local Abbreviation lexLess := (path_lex Value_Equals Value_Less).
Local Abbreviation dLess :=
  (Difference_Less Value_Equals Value_Less Path_Equals).
Local Abbreviation psLess :=
  (PatchSort_Less Value_Equals Value_Less Path_Equals).
Local Abbreviation patches :=
  (PatchSort_sort_Interface Format Value Value_Equals Value_Less Path_Equals).
Local Abbreviation variants :=
  (Forall (fun pp : PathPart Value => is_variant pp = true)).

(** ** Swapping two differences *)

(** The position the element at [k] comes from when [i] and [j] are
    swapped. *)
Lemma swapped_lookup (l : Patch Value) (i j k : nat)
  (di dj : Difference Value) :
  l !! i = Some di -> l !! j = Some dj ->
  <[j := di]> (<[i := dj]> l) !! k
  = l !! (if decide (k = j) then i else if decide (k = i) then j else k).
Proof.
  intros Hi Hj.
  pose proof (lookup_lt_Some _ _ _ Hi) as Li.
  pose proof (lookup_lt_Some _ _ _ Hj) as Lj.
  destruct (decide (k = j)) as [->|Hkj].
  - rewrite list_lookup_insert_eq by (rewrite length_insert; exact Lj).
    symmetry. exact Hi.
  - rewrite list_lookup_insert_ne by congruence.
    destruct (decide (k = i)) as [->|Hki].
    + rewrite list_lookup_insert_eq by exact Li. symmetry. exact Hj.
    + rewrite list_lookup_insert_ne by congruence. reflexivity.
Qed.

Lemma swapped_Permutation (l : Patch Value) (i j : nat)
  (di dj : Difference Value) :
  l !! i = Some di -> l !! j = Some dj ->
  <[j := di]> (<[i := dj]> l) ≡ₚ l.
Proof.
  intros Hi Hj. apply Permutation_inj. split.
  - rewrite !length_insert. reflexivity.
  - exists (fun k =>
              if decide (k = j) then i else if decide (k = i) then j else k).
    split.
    + intros x y. repeat case_decide; congruence.
    + intros k. apply swapped_lookup; assumption.
Qed.

Lemma Swap_Ret_inv (ps ps' : PatchSort Format Value) (i j : nat) :
  PatchSort_Swap ps i j = Ret ps' ->
  patch ps' ≡ₚ patch ps /\ format ps' = format ps.
Proof.
  unfold PatchSort_Swap.
  destruct (patch ps !! i) as [di|] eqn:Hi; [|discriminate].
  destruct (patch ps !! j) as [dj|] eqn:Hj; [|discriminate].
  intros [= <-]. simpl. split; [|reflexivity].
  apply swapped_Permutation; assumption.
Qed.

(** X4: [Swap] at two positions of the patch exchanges the two
    differences and leaves every other position, the length and the format
    as they were; the patch it gives is a rearrangement of the one it was
    given, and swapping the same two positions again gives the first patch
    back. *)
Theorem PatchSort_Swap_exchanges (ps : PatchSort Format Value) (i j : nat) :
  (i < PatchSort_Len ps)%nat -> (j < PatchSort_Len ps)%nat ->
  exists ps',
    PatchSort_Swap ps i j = Ret ps'
    /\ format ps' = format ps
    /\ PatchSort_Len ps' = PatchSort_Len ps
    /\ patch ps' !! i = patch ps !! j
    /\ patch ps' !! j = patch ps !! i
    /\ (forall k, k <> i -> k <> j -> patch ps' !! k = patch ps !! k)
    /\ patch ps' ≡ₚ patch ps
    /\ PatchSort_Swap ps' i j = Ret ps.
Proof.
  destruct ps as [l fmt]. unfold PatchSort_Len, PatchSort_Swap. simpl.
  intros Li Lj.
  destruct (lookup_lt_is_Some_2 l i Li) as [di Hi].
  destruct (lookup_lt_is_Some_2 l j Lj) as [dj Hj].
  rewrite Hi, Hj. eexists. split; [reflexivity|]. simpl.
  pose proof (swapped_lookup l i j) as Hk.
  assert (<[j := di]> (<[i := dj]> l) !! i = Some dj) as Hi'.
  { rewrite (Hk i di dj Hi Hj). destruct (decide (i = j)) as [->|_].
    - congruence.
    - rewrite decide_True by reflexivity. exact Hj. }
  assert (<[j := di]> (<[i := dj]> l) !! j = Some di) as Hj'.
  { rewrite (Hk j di dj Hi Hj), decide_True by reflexivity. exact Hi. }
  split; [reflexivity|]. split; [rewrite !length_insert; reflexivity|].
  split; [congruence|]. split; [congruence|]. split.
  { intros k Hki Hkj. rewrite (Hk k di dj Hi Hj).
    rewrite decide_False by exact Hkj. rewrite decide_False by exact Hki.
    reflexivity. }
  split; [apply swapped_Permutation; assumption|].
  rewrite Hi', Hj'. do 2 f_equal. apply list_eq. intros k.
  rewrite (swapped_lookup _ i j k dj di Hi' Hj'), (Hk _ di dj Hi Hj).
  repeat case_decide; congruence.
Qed.

(** An index expression returns the element at a position inside the
    slice, and panics at a position below 0 or not below the length. *)
Lemma Patch_index_inside (p : Patch Value) (i : Z) :
  0 <= i < Z.of_nat (length p) ->
  exists d, p !! Z.to_nat i = Some d /\ Patch_index p i = Ret d.
Proof.
  intros [H0 Hn]. unfold Patch_index.
  destruct (Z.ltb_spec i 0) as [Hneg|_]; [lia|].
  destruct (lookup_lt_is_Some_2 p (Z.to_nat i)) as [d Hd]; [lia|].
  exists d. rewrite Hd. auto.
Qed.

Lemma Patch_index_outside (p : Patch Value) (i : Z) :
  i < 0 \/ Z.of_nat (length p) <= i ->
  Patch_index p i = Panic "index out of range".
Proof.
  intros H. unfold Patch_index.
  destruct (Z.ltb_spec i 0) as [Hneg|Hpos]; [reflexivity|].
  rewrite (proj2 (lookup_ge_None p (Z.to_nat i))); [reflexivity|lia].
Qed.

Lemma Patch_index_of_nat (p : Patch Value) (n : nat) :
  Patch_index p (Z.of_nat n)
  = match p !! n with
    | Some d => Ret d
    | None => Panic "index out of range"
    end.
Proof.
  unfold Patch_index.
  destruct (Z.ltb_spec (Z.of_nat n) 0) as [Hneg|_]; [lia|].
  rewrite Nat2Z.id. reflexivity.
Qed.

(** The comparison of two paths panics only with the message of the type
    switches, on a part that is of none of the three variants. *)
Lemma lexLess_Panic_inv (fmt : Format) (p1 p2 : Path Value) (msg : string) :
  lexLess fmt p1 p2 = Panic msg ->
  msg = "unreachable"
  /\ exists pp, (pp ∈ p1 \/ pp ∈ p2) /\ is_variant pp = false.
Proof.
  revert p2.
  induction p1 as [|a p1 IH]; intros [|b p2]; simpl; try discriminate.
  destruct (cmp fmt a b) as [c|m] eqn:Hab.
  - destruct (c =? -1); [discriminate|].
    destruct (c =? 1); [discriminate|].
    intros H. destruct (IH _ H) as (Hmsg & pp & Hin & Hpp).
    split; [exact Hmsg|]. exists pp. split; [|exact Hpp].
    destruct Hin; [left|right]; right; assumption.
  - intros [= <-].
    destruct (cmp_Panic_inv _ _ _ _ _ _ _ _ Hab) as [Hmsg [Hv|Hv]].
    + split; [exact Hmsg|]. exists a. split; [left; left|exact Hv].
    + split; [exact Hmsg|]. exists b. split; [right; left|exact Hv].
Qed.

Lemma dLess_Panic_inv (fmt : Format) (di dj : Difference Value)
  (msg : string) :
  dLess fmt di dj = Panic msg ->
  msg = "unreachable"
  /\ exists pp, (pp ∈ DPath di \/ pp ∈ DPath dj) /\ is_variant pp = false.
Proof.
  unfold Difference_Less.
  destruct (Path_Equals (DPath di) (DPath dj)); [discriminate|].
  rewrite pathIsLess_lex. apply lexLess_Panic_inv.
Qed.

(** X5: [Swap] and [Less], called on two [int], panic with an index out of
    range exactly when one of the two is below 0 or not below [Len]; [Swap]
    panics in no other way; any other panic of [Less] is the unreachable of
    the type switches, with both positions inside the patch and, in the
    path of one of the two differences read, a part that is of none of the
    three variants.  At positions that are not negative the two methods are
    [PatchSort_Swap] and [PatchSort_Less]. *)
Theorem PatchSort_index_out_of_range (ps : PatchSort Format Value)
  (i j : Z) :
  (PatchSort_Swap_int ps i j = Panic "index out of range"
   <-> i < 0 \/ Z.of_nat (PatchSort_Len ps) <= i
       \/ j < 0 \/ Z.of_nat (PatchSort_Len ps) <= j)
  /\ (forall msg : string,
        PatchSort_Swap_int ps i j = Panic msg -> msg = "index out of range")
  /\ (PatchSort_Less_int Value_Equals Value_Less Path_Equals ps i j
      = Panic "index out of range"
      <-> i < 0 \/ Z.of_nat (PatchSort_Len ps) <= i
          \/ j < 0 \/ Z.of_nat (PatchSort_Len ps) <= j)
  /\ (forall msg : string,
        PatchSort_Less_int Value_Equals Value_Less Path_Equals ps i j
        = Panic msg ->
        msg <> "index out of range" ->
        msg = "unreachable"
        /\ 0 <= i < Z.of_nat (PatchSort_Len ps)
        /\ 0 <= j < Z.of_nat (PatchSort_Len ps)
        /\ exists di dj pp,
             patch ps !! Z.to_nat i = Some di
             /\ patch ps !! Z.to_nat j = Some dj
             /\ (pp ∈ DPath di \/ pp ∈ DPath dj)
             /\ is_variant pp = false)
  /\ (forall n m : nat,
        PatchSort_Swap_int ps (Z.of_nat n) (Z.of_nat m)
        = PatchSort_Swap ps n m
        /\ PatchSort_Less_int Value_Equals Value_Less Path_Equals ps
             (Z.of_nat n) (Z.of_nat m)
           = psLess ps n m).
Proof.
  unfold PatchSort_Swap_int, PatchSort_Less_int, PatchSort_Len.
  assert ((0 <= i < Z.of_nat (length (patch ps)))
          \/ (i < 0 \/ Z.of_nat (length (patch ps)) <= i)) as Ci by lia.
  assert ((0 <= j < Z.of_nat (length (patch ps)))
          \/ (j < 0 \/ Z.of_nat (length (patch ps)) <= j)) as Cj by lia.
  split; [|split; [|split; [|split]]].
  - destruct Cj as [Ij|Oj].
    + destruct (Patch_index_inside _ _ Ij) as (dj & _ & ->). cbn [go_bind].
      destruct Ci as [Ii|Oi].
      * destruct (Patch_index_inside _ _ Ii) as (di & _ & ->).
        cbn [go_bind]. split; [discriminate|lia].
      * rewrite (Patch_index_outside _ _ Oi). cbn [go_bind].
        split; [lia|reflexivity].
    + rewrite (Patch_index_outside _ _ Oj). cbn [go_bind].
      split; [lia|reflexivity].
  - intros msg. destruct Cj as [Ij|Oj].
    + destruct (Patch_index_inside _ _ Ij) as (dj & _ & ->). cbn [go_bind].
      destruct Ci as [Ii|Oi].
      * destruct (Patch_index_inside _ _ Ii) as (di & _ & ->).
        cbn [go_bind]. discriminate.
      * rewrite (Patch_index_outside _ _ Oi). cbn [go_bind].
        intros [= <-]. reflexivity.
    + rewrite (Patch_index_outside _ _ Oj). cbn [go_bind].
      intros [= <-]. reflexivity.
  - destruct Ci as [Ii|Oi].
    + destruct (Patch_index_inside _ _ Ii) as (di & _ & ->). cbn [go_bind].
      destruct Cj as [Ij|Oj].
      * destruct (Patch_index_inside _ _ Ij) as (dj & _ & ->).
        cbn [go_bind]. split; [|lia].
        intros H. destruct (dLess_Panic_inv _ _ _ _ H) as [Hmsg _].
        discriminate Hmsg.
      * rewrite (Patch_index_outside _ _ Oj). cbn [go_bind].
        split; [lia|reflexivity].
    + rewrite (Patch_index_outside _ _ Oi). cbn [go_bind].
      split; [lia|reflexivity].
  - intros msg. destruct Ci as [Ii|Oi].
    + destruct (Patch_index_inside _ _ Ii) as (di & Hdi & ->).
      cbn [go_bind]. destruct Cj as [Ij|Oj].
      * destruct (Patch_index_inside _ _ Ij) as (dj & Hdj & ->).
        cbn [go_bind]. intros H _.
        destruct (dLess_Panic_inv _ _ _ _ H) as (Hmsg & pp & Hin & Hpp).
        split; [exact Hmsg|]. split; [exact Ii|]. split; [exact Ij|].
        exists di, dj, pp. auto.
      * rewrite (Patch_index_outside _ _ Oj). cbn [go_bind].
        intros [= <-] Hne. contradiction Hne. reflexivity.
    + rewrite (Patch_index_outside _ _ Oi). cbn [go_bind].
      intros [= <-] Hne. contradiction Hne. reflexivity.
  - intros n m. rewrite !Patch_index_of_nat, !Nat2Z.id.
    unfold PatchSort_Swap, PatchSort_Less.
    destruct (patch ps !! n) as [dn|], (patch ps !! m) as [dm|];
      cbn [go_bind]; split; reflexivity.
Qed.

(** The inner and the outer loop of the sort only swap. *)
Lemma insertionSort_inner_permutes (a j : nat) :
  forall data data' : PatchSort Format Value,
    insertionSort_inner (H := patches) data a j = Ret data' ->
    patch data' ≡ₚ patch data /\ format data' = format data.
Proof.
  induction j as [|j IH]; intros data data'; cbn [insertionSort_inner].
  - intros [= <-]. auto.
  - destruct (a <? S j)%nat; [|intros [= <-]; auto].
    destruct (Less data (S j) j) as [[]|]; cbn [go_bind];
      [|intros [= <-]; auto|discriminate].
    destruct (Swap data (S j) j) as [data1|] eqn:Hswap; cbn [go_bind];
      [|discriminate].
    intros Hrun. destruct (IH _ _ Hrun) as [Hp Hf].
    destruct (Swap_Ret_inv _ _ _ _ Hswap) as [Hp1 Hf1].
    split; [rewrite Hp; exact Hp1|congruence].
Qed.

Lemma insertionSort_outer_permutes (n a : nat) :
  forall (i : nat) (data data' : PatchSort Format Value),
    insertionSort_outer (H := patches) n data a i = Ret data' ->
    patch data' ≡ₚ patch data /\ format data' = format data.
Proof.
  induction n as [|n IH]; intros i data data'; cbn [insertionSort_outer].
  - intros [= <-]. auto.
  - destruct (insertionSort_inner data a i) as [data1|] eqn:Hin;
      cbn [go_bind]; [|discriminate].
    intros Hrun. destruct (IH _ _ _ Hrun) as [Hp Hf].
    destruct (insertionSort_inner_permutes _ _ _ _ Hin) as [Hp1 Hf1].
    split; [rewrite Hp; exact Hp1|congruence].
Qed.

(** X6: whatever the comparator answers, the insertion sort over [Less]
    and [Swap] neither drops nor repeats a difference: over any range, the
    patch it returns is a rearrangement of the patch it was given, of the
    same length and under the same format. *)
Theorem insertionSort_permutes (data data' : PatchSort Format Value)
  (a b : nat) :
  insertionSort (H := patches) data a b = Ret data' ->
  patch data' ≡ₚ patch data
  /\ PatchSort_Len data' = PatchSort_Len data
  /\ format data' = format data.
Proof.
  unfold insertionSort. intros Hrun.
  destruct (insertionSort_outer_permutes _ _ _ _ _ Hrun) as [Hp Hf].
  split; [exact Hp|]. split; [|exact Hf].
  unfold PatchSort_Len. rewrite Hp. reflexivity.
Qed.

(** ** Parent and child *)

Hypothesis Equals_refl : forall f x, Value_Equals f x x = true.
Hypothesis Path_Equals_exact : forall p q : Path Value,
  Path_Equals p q = true -> p = q.

(** X7: a difference at a path is before every difference below that
    path, whatever the two change types are: an edit of a node is ordered
    before any edit inside it. *)
Theorem Less_parent_before_child (ps : PatchSort Format Value) (i j : nat)
  (di dj : Difference Value) (below : Path Value) :
  patch ps !! i = Some di -> patch ps !! j = Some dj ->
  DPath dj = DPath di ++ below -> below <> [] ->
  variants (DPath di) ->
  psLess ps i j = Ret true /\ psLess ps j i = Ret false.
Proof using Equals_refl Path_Equals_exact.
  intros Hi Hj Hpath Hbelow Hvar.
  assert (length (DPath di) < length (DPath dj))%nat as Hlen.
  { rewrite Hpath, length_app. destruct below; [contradiction|simpl; lia]. }
  assert (forall k a b,
            DPath di !! k = Some a -> DPath dj !! k = Some b ->
            cmp (format ps) a b = Ret 0 /\ cmp (format ps) b a = Ret 0)
    as Hparts.
  { intros k a b Ha Hb.
    rewrite Hpath, lookup_app_l in Hb by (eapply lookup_lt_Some, Ha).
    assert (a = b) as <- by congruence.
    assert (is_variant a = true) as Hv.
    { rewrite Forall_forall in Hvar.
      apply Hvar, (list_elem_of_lookup_2 _ k), Ha. }
    split; apply (cmp_refl _ _ _ _ Equals_refl); exact Hv. }
  unfold PatchSort_Less, Difference_Less. rewrite Hi, Hj.
  destruct (Path_Equals (DPath di) (DPath dj)) eqn:E1.
  { apply Path_Equals_exact in E1. rewrite E1 in Hlen. lia. }
  destruct (Path_Equals (DPath dj) (DPath di)) eqn:E2.
  { apply Path_Equals_exact in E2. rewrite E2 in Hlen. lia. }
  rewrite !pathIsLess_lex. split.
  - apply lex_prefix; [exact Hlen|].
    intros k a b Ha Hb. apply (Hparts k a b Ha Hb).
  - apply lex_longer; [exact Hlen|].
    intros k a b Ha Hb. apply (Hparts k a b Ha Hb).
Qed.

(** ** The comparator on the positions of a patch *)

Hypothesis Equals_sym : forall f x y,
  Value_Equals f x y = Value_Equals f y x.
Hypothesis Equals_trans : forall f x y z,
  Value_Equals f x y = true -> Value_Equals f y z = true ->
  Value_Equals f x z = true.
Hypothesis Less_total : forall f x y,
  Value_Equals f x y = false -> Value_Less f y x = negb (Value_Less f x y).
Hypothesis Less_trans : forall f x y z,
  Value_Less f x y = true -> Value_Less f y z = true ->
  Value_Less f x z = true.
Hypothesis Less_compat : forall f x y z,
  Value_Equals f x y = true ->
  Value_Less f x z = Value_Less f y z /\ Value_Less f z x = Value_Less f z y.

(** X8: neither of two paths is less than the other exactly when they have
    the same length and their parts compare equal one by one; with the
    asymmetry of the order, of two paths one is less, or the other, or they
    are equal in this sense. *)
Theorem pathIsLess_neither_iff_parts_equal (format : Format)
  (p q : Path Value) :
  pathIsLess Value_Equals Value_Less format p q = Ret false
  /\ pathIsLess Value_Equals Value_Less format q p = Ret false
  <-> Forall2
        (fun a b => pathPartCompare Value_Equals Value_Less format a b = Ret 0)
        p q.
Proof using Equals_sym Equals_trans Less_total Less_trans Less_compat.
  rewrite !pathIsLess_lex. split.
  - revert q. induction p as [|a p IH]; intros [|b q]; simpl;
      intros [H1 H2]; try discriminate; [constructor|].
    destruct (cmp format a b) as [c|] eqn:Hab; [|discriminate].
    rewrite (cmp_antisym _ _ _ _ Equals_sym Equals_trans Less_total
               Less_trans Less_compat _ _ _ _ Hab) in H2.
    destruct (cmp_Ret_inv _ _ _ _ _ _ _ _ Hab) as [[->|[->| ->]] _];
      simpl in H1, H2; try discriminate.
    constructor; [exact Hab|]. apply IH. split; assumption.
  - intros H. induction H as [|a b p q Hab _ [IH1 IH2]]; simpl;
      [split; reflexivity|].
    rewrite Hab, (cmp_zero_sym _ _ _ _ Equals_sym _ _ _ Hab). simpl.
    split; assumption.
Qed.

(** X9: on the positions of a patch whose paths are made of the three
    variants, [Less] is a strict order, as a sort needs it: no position is
    less than itself, two positions are never less than one another, and
    being less is transitive. *)
Theorem PatchSort_Less_strict_order (ps : PatchSort Format Value) :
  (forall d, d ∈ patch ps -> variants (DPath d)) ->
  (forall i, (i < PatchSort_Len ps)%nat -> psLess ps i i = Ret false)
  /\ (forall i j, psLess ps i j = Ret true -> psLess ps j i = Ret false)
  /\ (forall i j k,
        psLess ps i j = Ret true -> psLess ps j k = Ret true ->
        psLess ps i k = Ret true).
Proof using Equals_sym Equals_trans Less_total Less_trans Less_compat
  Path_Equals_exact.
  intros Hvar.
  assert (forall i d, patch ps !! i = Some d -> variants (DPath d)) as Hat.
  { intros i d Hd. apply Hvar, (list_elem_of_lookup_2 _ i), Hd. }
  pose proof (Difference_Less_irrefl _ _ Value_Equals Value_Less Path_Equals
                Equals_sym Equals_trans Less_total Less_trans Less_compat
                (format ps)) as Hirr.
  pose proof (Difference_Less_transitive _ _ Value_Equals Value_Less
                Path_Equals Equals_sym Equals_trans Less_total Less_trans
                Less_compat Path_Equals_exact (format ps)) as Htr.
  unfold PatchSort_Less, PatchSort_Len. repeat split.
  - intros i Li. destruct (lookup_lt_is_Some_2 _ _ Li) as [d Hd].
    rewrite Hd. apply Hirr, (Hat i), Hd.
  - intros i j.
    destruct (patch ps !! i) as [di|] eqn:Hi; [|discriminate].
    destruct (patch ps !! j) as [dj|] eqn:Hj; [|discriminate].
    intros Hij.
    destruct (Difference_Less_returns _ _ Value_Equals Value_Less
                Path_Equals (format ps) dj di (Hat _ _ Hj) (Hat _ _ Hi))
      as [[] Hji]; [|exact Hji].
    pose proof (Htr _ _ _ Hij Hji) as Hii.
    rewrite (Hirr di (Hat _ _ Hi)) in Hii. discriminate.
  - intros i j k.
    destruct (patch ps !! i) as [di|]; [|discriminate].
    destruct (patch ps !! j) as [dj|]; [|discriminate].
    destruct (patch ps !! k) as [dk|]; [|discriminate].
    apply Htr.
Qed.

End PatchExtras.

(** * Further properties of the merge *)

Section MergeExtras.

Variable Context : Type.
Variable DoltDB : Type.
Variable Commit : Type.
Variable ValueReadWriter : Type.
Variable Merger : Type.
Variable RootValue : Type.
Variable Table : Type.
Variable Error : Type.

Variable DoltDB_ValueReadWriter : DoltDB -> ValueReadWriter.
Variable NewMerger :
  Context -> Commit -> Commit -> ValueReadWriter -> result Error Merger.
Variable GetRootValue : Commit -> result Error RootValue.
Variable UnionTableNames :
  Context -> RootValue -> RootValue -> result Error (list string).
Variable MergeTable :
  Merger -> Context -> string ->
  result Error (option Table * option MergeStats).
Variable PutTable :
  RootValue -> Context -> string -> Table -> result Error RootValue.
Variable HasTable : RootValue -> Context -> string -> result Error bool.
Variable RemoveTables :
  RootValue -> Context -> string -> result Error RootValue.

Local Abbreviation loop :=
  (mergeTables (Commit := Commit) MergeTable PutTable HasTable RemoveTables).
Local Abbreviation mergeCommits :=
  (MergeCommits DoltDB_ValueReadWriter NewMerger GetRootValue
     UnionTableNames MergeTable PutTable HasTable RemoveTables).
Local Abbreviation removed := (Some (MergeStats_of_Operation TableRemoved)).

(** [MergeCommits] once the merger, the two roots and the union of the
    table names are there: the loop, and the return that follows it. *)
Lemma MergeCommits_loop (ctx : Context) (ddb : DoltDB) (cm1 cm2 : Commit)
  (merger : Merger) (root1 root2 : RootValue) (names : list string) :
  NewMerger ctx cm1 cm2 (DoltDB_ValueReadWriter ddb) = Ok merger ->
  GetRootValue cm1 = Ok root1 ->
  GetRootValue cm2 = Ok root2 ->
  UnionTableNames ctx root1 root2 = Ok names ->
  mergeCommits ctx ddb cm1 cm2
  = (CallNewMerger :: CallGetRootValue cm1 :: CallGetRootValue cm2
       :: CallUnionTableNames :: fst (loop ctx merger names root1 ∅),
     match snd (loop ctx merger names root1 ∅) with
     | Continue (root, stats) =>
         Ret (mkMergeResult (Some root) (Some stats) None)
     | Return r => Ret r
     | Panicked msg => Panic msg
     end).
Proof.
  intros Hnm Hr1 Hr2 Hun. unfold MergeCommits, MergeCommits_body.
  rewrite proc_bind_try, Hnm. cbn [fst snd].
  rewrite proc_bind_try, Hr1. cbn [fst snd].
  rewrite proc_bind_try, Hr2. cbn [fst snd].
  rewrite proc_bind_try, Hun. cbn [fst snd].
  unfold proc_bind.
  destruct (loop ctx merger names root1 ∅) as [t [[r s]|r|msg]];
    simpl; rewrite ?app_nil_r; reflexivity.
Qed.

(** A merge that returns a root and statistics ran its loop to the end. *)
Lemma MergeCommits_success_inv (ctx : Context) (ddb : DoltDB)
  (cm1 cm2 : Commit) (merger : Merger) (root1 root2 : RootValue)
  (names : list string) (root' : RootValue)
  (stats' : gmap string (option MergeStats)) :
  NewMerger ctx cm1 cm2 (DoltDB_ValueReadWriter ddb) = Ok merger ->
  GetRootValue cm1 = Ok root1 ->
  GetRootValue cm2 = Ok root2 ->
  UnionTableNames ctx root1 root2 = Ok names ->
  snd (mergeCommits ctx ddb cm1 cm2)
  = Ret (mkMergeResult (Some root') (Some stats') None) ->
  snd (loop ctx merger names root1 ∅) = Continue (root', stats').
Proof.
  intros Hnm Hr1 Hr2 Hun.
  rewrite (MergeCommits_loop _ _ _ _ _ _ _ _ Hnm Hr1 Hr2 Hun). cbn [snd].
  pose proof (mergeTables_Return Context Commit Merger RootValue Table Error
                MergeTable PutTable HasTable RemoveTables ctx merger names
                root1 ∅) as HE.
  destruct (snd (loop ctx merger names root1 ∅)) as [[r s]|r|msg].
  - intros [= <- <-]. reflexivity.
  - intros [= ->]. destruct (HE _ eq_refl) as [e [=]].
  - discriminate.
Qed.

(** The statistics the loop leaves: an entry for each table it went
    through, holding what the merge of that table returned or the mark of
    a removal. *)
Lemma mergeTables_stats (ctx : Context) (merger : Merger)
  (names : list string) :
  forall (root root' : RootValue)
         (stats stats' : gmap string (option MergeStats)),
    snd (loop ctx merger names root stats) = Continue (root', stats') ->
    (forall t, is_Some (stats' !! t) <-> t ∈ names \/ is_Some (stats !! t))
    /\ (forall t v, stats' !! t = Some v ->
          stats !! t = Some v
          \/ (exists tbl, MergeTable merger ctx t = Ok (Some tbl, v))
          \/ (v = removed /\ exists st, MergeTable merger ctx t = Ok (None, st))).
Proof.
  induction names as [|n rest IH]; intros root root' stats stats'.
  - simpl. intros [= <- <-]. split.
    + intros t. rewrite elem_of_nil. tauto.
    + auto.
  - rewrite mergeTables_cons.
    destruct (MergeTable merger ctx n) as [[[tbl|] st]|e] eqn:Hmt;
      [| |discriminate].
    + destruct (PutTable root ctx n tbl) as [r1|e]; [|discriminate]. simpl.
      intros Hrun. destruct (IH _ _ _ _ Hrun) as [Hdom Hval]. split.
      * intros t. rewrite Hdom, elem_of_cons.
        destruct (decide (n = t)) as [->|Hne].
        -- rewrite lookup_insert_eq. split; [auto|intros _; right; eauto].
        -- rewrite lookup_insert_ne by exact Hne.
           split; intros [H|H]; auto. destruct H; [congruence|auto].
      * intros t v Hv. destruct (Hval t v Hv) as [H|H]; [|auto].
        destruct (decide (n = t)) as [->|Hne].
        -- rewrite lookup_insert_eq in H. injection H as <-. eauto.
        -- rewrite lookup_insert_ne in H by exact Hne. auto.
    + destruct (HasTable root ctx n) as [[]|e]; try discriminate.
      destruct (RemoveTables root ctx n) as [r1|e]; [|discriminate]. simpl.
      intros Hrun. destruct (IH _ _ _ _ Hrun) as [Hdom Hval]. split.
      * intros t. rewrite Hdom, elem_of_cons.
        destruct (decide (n = t)) as [->|Hne].
        -- rewrite lookup_insert_eq. split; [auto|intros _; right; eauto].
        -- rewrite lookup_insert_ne by exact Hne.
           split; intros [H|H]; auto. destruct H; [congruence|auto].
      * intros t v Hv. destruct (Hval t v Hv) as [H|H]; [|auto].
        destruct (decide (n = t)) as [->|Hne].
        -- rewrite lookup_insert_eq in H. injection H as <-. eauto.
        -- rewrite lookup_insert_ne in H by exact Hne. auto.
Qed.

(** X10: the statistics of a merge that runs to its end have an entry for
    each table of the union and for no other table; each entry holds the
    statistics the merge of that table returned, or, where it returned no
    merged table, statistics whose [Operation] is [TableRemoved] and whose
    counts are all 0. *)
Theorem MergeCommits_stats_cover_union (ctx : Context) (ddb : DoltDB)
  (cm1 cm2 : Commit) (merger : Merger) (root1 root2 : RootValue)
  (names : list string) (root' : RootValue)
  (stats' : gmap string (option MergeStats)) :
  NewMerger ctx cm1 cm2 (DoltDB_ValueReadWriter ddb) = Ok merger ->
  GetRootValue cm1 = Ok root1 ->
  GetRootValue cm2 = Ok root2 ->
  UnionTableNames ctx root1 root2 = Ok names ->
  snd (mergeCommits ctx ddb cm1 cm2)
  = Ret (mkMergeResult (Some root') (Some stats') None) ->
  (forall t, is_Some (stats' !! t) <-> t ∈ names)
  /\ (forall t v, stats' !! t = Some v ->
        (exists tbl, MergeTable merger ctx t = Ok (Some tbl, v))
        \/ ((exists s : MergeStats,
               v = Some s
               /\ Operation s = TableRemoved
               /\ Adds s = 0 /\ Deletes s = 0 /\ Modifications s = 0
               /\ Conflicts s = 0)
            /\ exists st, MergeTable merger ctx t = Ok (None, st))).
Proof.
  intros Hnm Hr1 Hr2 Hun Hrun.
  pose proof (MergeCommits_success_inv _ _ _ _ _ _ _ _ _ _
                Hnm Hr1 Hr2 Hun Hrun) as Hloop.
  destruct (mergeTables_stats _ _ _ _ _ _ _ Hloop) as [Hdom Hval]. split.
  - intros t. rewrite Hdom, lookup_empty. split; [|auto].
    intros [H|[x Hx]]; [exact H|discriminate].
  - intros t v Hv. destruct (Hval t v Hv) as [H|[H|[-> H]]].
    + rewrite lookup_empty in H. discriminate.
    + left. exact H.
    + right. split; [|exact H].
      exists (MergeStats_of_Operation TableRemoved).
      split; [reflexivity|]. split; [reflexivity|].
      split; [reflexivity|]. split; [reflexivity|].
      split; reflexivity.
Qed.

(** X11: the [MergeTable] calls of a merge go through the union of the
    table names in its order, one call for each name, and stop where the
    merge stops: they are a prefix of the union, and the whole of it when
    the merge returns without an error. *)
Theorem MergeCommits_merges_tables_in_order (ctx : Context) (ddb : DoltDB)
  (cm1 cm2 : Commit) (root1 root2 : RootValue) (names : list string) :
  GetRootValue cm1 = Ok root1 ->
  GetRootValue cm2 = Ok root2 ->
  UnionTableNames ctx root1 root2 = Ok names ->
  MergeTable_calls (fst (mergeCommits ctx ddb cm1 cm2)) `prefix_of` names
  /\ (forall res,
        snd (mergeCommits ctx ddb cm1 cm2) = Ret res -> res_err res = None ->
        MergeTable_calls (fst (mergeCommits ctx ddb cm1 cm2)) = names).
Proof.
  intros Hr1 Hr2 Hun.
  destruct (NewMerger ctx cm1 cm2 (DoltDB_ValueReadWriter ddb))
    as [merger|e] eqn:Hnm.
  - rewrite (MergeCommits_loop _ _ _ _ _ _ _ _ Hnm Hr1 Hr2 Hun).
    cbn [fst snd MergeTable_calls].
    assert (forall names root stats,
              MergeTable_calls (fst (loop ctx merger names root stats))
                `prefix_of` names
              /\ (forall r,
                    snd (loop ctx merger names root stats) = Continue r ->
                    MergeTable_calls (fst (loop ctx merger names root stats))
                    = names)) as Hloop.
    { clear. induction names as [|n rest IH]; intros root stats.
      - simpl. split; [apply prefix_nil|reflexivity].
      - rewrite mergeTables_cons.
        destruct (MergeTable merger ctx n) as [[[tbl|] st]|e].
        + destruct (PutTable root ctx n tbl) as [r1|e];
            cbn [fst snd MergeTable_calls].
          * destruct (IH r1 (<[n:=st]> stats)) as [Hp Hall].
            split; [apply prefix_cons, Hp|].
            intros r Hr. f_equal. apply (Hall r Hr).
          * split; [apply prefix_cons, prefix_nil|discriminate].
        + destruct (HasTable root ctx n) as [[]|e];
            cbn [fst snd MergeTable_calls].
          * destruct (RemoveTables root ctx n) as [r1|e];
              cbn [fst snd MergeTable_calls].
            -- destruct (IH r1 (<[n:=removed]> stats)) as [Hp Hall].
               split; [apply prefix_cons, Hp|].
               intros r Hr. f_equal. apply (Hall r Hr).
            -- split; [apply prefix_cons, prefix_nil|discriminate].
          * split; [apply prefix_cons, prefix_nil|discriminate].
          * split; [apply prefix_cons, prefix_nil|discriminate].
        + cbn [fst snd MergeTable_calls].
          split; [apply prefix_cons, prefix_nil|discriminate]. }
    destruct (Hloop names root1 ∅) as [Hp Hall]. split; [exact Hp|].
    intros res.
    pose proof (mergeTables_Return Context Commit Merger RootValue Table
                  Error MergeTable PutTable HasTable RemoveTables ctx merger
                  names root1 ∅) as HE.
    destruct (snd (loop ctx merger names root1 ∅)) as [[r s]|r|msg] eqn:Hs.
    + intros _ _. apply (Hall _ eq_refl).
    + intros [= <-] Herr. destruct (HE _ eq_refl) as [e ->]. discriminate.
    + discriminate.
  - unfold MergeCommits, MergeCommits_body. rewrite proc_bind_try, Hnm.
    cbn [fst snd MergeTable_calls]. split; [apply prefix_nil|].
    intros res [= <-]. discriminate.
Qed.

(** What comes before a write in the calls of the loop. *)
Lemma mergeTables_writes (ctx : Context) (merger : Merger)
  (names : list string) :
  forall (root : RootValue) (stats : gmap string (option MergeStats))
         (i : nat) (n : string),
    (fst (loop ctx merger names root stats) !! i = Some (CallPutTable n) ->
     (exists j, (j < i)%nat
                /\ fst (loop ctx merger names root stats) !! j
                   = Some (CallMergeTable n))
     /\ exists tbl st, MergeTable merger ctx n = Ok (Some tbl, st))
    /\ (fst (loop ctx merger names root stats) !! i
        = Some (CallRemoveTables n) ->
        (exists j, (j < i)%nat
                   /\ fst (loop ctx merger names root stats) !! j
                      = Some (CallMergeTable n))
        /\ (exists j, (j < i)%nat
                      /\ fst (loop ctx merger names root stats) !! j
                         = Some (CallHasTable n))
        /\ exists st, MergeTable merger ctx n = Ok (None, st)).
Proof.
  induction names as [|m rest IH]; intros root stats i n.
  - simpl. split; discriminate.
  - rewrite mergeTables_cons.
    destruct (MergeTable merger ctx m) as [[[tbl|] st]|e] eqn:Hmt.
    + destruct (PutTable root ctx m tbl) as [r1|e]; cbn [fst].
      * destruct i as [|[|i]]; simpl.
        -- split; discriminate.
        -- split; [intros [= <-]|discriminate].
           split; [exists 0%nat; split; [lia|reflexivity]|eauto].
        -- destruct (IH r1 (<[m:=st]> stats) i n) as [IHp IHr]. split.
           ++ intros H. destruct (IHp H) as [(j & Hj & Hat) Hok].
              split; [exists (S (S j)); split; [lia|exact Hat]|exact Hok].
           ++ intros H.
              destruct (IHr H) as ((j & Hj & Hat) & (k & Hk & Hak) & Hok).
              split; [exists (S (S j)); split; [lia|exact Hat]|].
              split; [exists (S (S k)); split; [lia|exact Hak]|exact Hok].
      * destruct i as [|[|i]]; simpl.
        -- split; discriminate.
        -- split; [intros [= <-]|discriminate].
           split; [exists 0%nat; split; [lia|reflexivity]|eauto].
        -- split; discriminate.
    + destruct (HasTable root ctx m) as [[]|e]; cbn [fst].
      * destruct (RemoveTables root ctx m) as [r1|e]; cbn [fst].
        -- destruct i as [|[|[|i]]]; simpl.
           ++ split; discriminate.
           ++ split; discriminate.
           ++ split; [discriminate|intros [= <-]].
              split; [exists 0%nat; split; [lia|reflexivity]|].
              split; [exists 1%nat; split; [lia|reflexivity]|eauto].
           ++ destruct (IH r1 (<[m:=removed]> stats) i n) as [IHp IHr].
              split.
              ** intros H. destruct (IHp H) as [(j & Hj & Hat) Hok].
                 split; [exists (S (S (S j))); split; [lia|exact Hat]|].
                 exact Hok.
              ** intros H.
                 destruct (IHr H)
                   as ((j & Hj & Hat) & (k & Hk & Hak) & Hok).
                 split; [exists (S (S (S j))); split; [lia|exact Hat]|].
                 split; [exists (S (S (S k))); split; [lia|exact Hak]|].
                 exact Hok.
        -- destruct i as [|[|[|i]]]; simpl; try (split; discriminate).
           split; [discriminate|intros [= <-]].
           split; [exists 0%nat; split; [lia|reflexivity]|].
           split; [exists 1%nat; split; [lia|reflexivity]|eauto].
      * destruct i as [|[|i]]; simpl; split; discriminate.
      * destruct i as [|[|i]]; simpl; split; discriminate.
    + destruct i as [|i]; simpl; split; discriminate.
Qed.

(** X18: a merge writes to the root only what a table merge has decided.
    [PutTable] is called for a table only after [MergeTable] has been
    called for it and has returned a merged table, and [RemoveTables] only
    after [MergeTable] has returned no merged table for it and [HasTable]
    has been asked about it. *)
Theorem MergeCommits_writes_after_merge (ctx : Context) (ddb : DoltDB)
  (cm1 cm2 : Commit) (merger : Merger) (i : nat) (n : string) :
  NewMerger ctx cm1 cm2 (DoltDB_ValueReadWriter ddb) = Ok merger ->
  (fst (mergeCommits ctx ddb cm1 cm2) !! i = Some (CallPutTable n) ->
   (exists j, (j < i)%nat
              /\ fst (mergeCommits ctx ddb cm1 cm2) !! j
                 = Some (CallMergeTable n))
   /\ exists tbl st, MergeTable merger ctx n = Ok (Some tbl, st))
  /\ (fst (mergeCommits ctx ddb cm1 cm2) !! i = Some (CallRemoveTables n) ->
      (exists j, (j < i)%nat
                 /\ fst (mergeCommits ctx ddb cm1 cm2) !! j
                    = Some (CallMergeTable n))
      /\ (exists j, (j < i)%nat
                    /\ fst (mergeCommits ctx ddb cm1 cm2) !! j
                       = Some (CallHasTable n))
      /\ exists st, MergeTable merger ctx n = Ok (None, st)).
Proof.
  intros Hnm.
  destruct (GetRootValue cm1) as [root1|e] eqn:Hr1.
  2:{ unfold MergeCommits, MergeCommits_body.
      rewrite proc_bind_try, Hnm. cbn [fst snd].
      rewrite proc_bind_try, Hr1. cbn [fst].
      destruct i as [|[|i]]; simpl; split; discriminate. }
  destruct (GetRootValue cm2) as [root2|e] eqn:Hr2.
  2:{ unfold MergeCommits, MergeCommits_body.
      rewrite proc_bind_try, Hnm. cbn [fst snd].
      rewrite proc_bind_try, Hr1. cbn [fst snd].
      rewrite proc_bind_try, Hr2. cbn [fst].
      destruct i as [|[|[|i]]]; simpl; split; discriminate. }
  destruct (UnionTableNames ctx root1 root2) as [names|e] eqn:Hun.
  2:{ unfold MergeCommits, MergeCommits_body.
      rewrite proc_bind_try, Hnm. cbn [fst snd].
      rewrite proc_bind_try, Hr1. cbn [fst snd].
      rewrite proc_bind_try, Hr2. cbn [fst snd].
      rewrite proc_bind_try, Hun. cbn [fst].
      destruct i as [|[|[|[|i]]]]; simpl; split; discriminate. }
  rewrite (MergeCommits_loop _ _ _ _ _ _ _ _ Hnm Hr1 Hr2 Hun). cbn [fst].
  destruct i as [|[|[|[|i]]]]; simpl; try (split; discriminate).
  destruct (mergeTables_writes ctx merger names root1 ∅ i n) as [Hp Hr].
  split.
  - intros H. destruct (Hp H) as [(j & Hj & Hat) Hok].
    split; [exists (S (S (S (S j)))); split; [lia|exact Hat]|exact Hok].
  - intros H. destruct (Hr H) as ((j & Hj & Hat) & (k & Hk & Hak) & Hok).
    split; [exists (S (S (S (S j)))); split; [lia|exact Hat]|].
    split; [exists (S (S (S (S k)))); split; [lia|exact Hak]|exact Hok].
Qed.

(** ** The tables of the merged root *)

(** The roots are maps from names to tables: putting or removing one table
    leaves the presence of every other table as it was. *)
Hypothesis PutTable_other : forall r ctx n tbl r' t,
  PutTable r ctx n tbl = Ok r' -> n <> t ->
  HasTable r' ctx t = HasTable r ctx t.
Hypothesis RemoveTables_other : forall r ctx n r' t,
  RemoveTables r ctx n = Ok r' -> n <> t ->
  HasTable r' ctx t = HasTable r ctx t.

Lemma mergeTables_other (ctx : Context) (merger : Merger) (t : string)
  (names : list string) :
  forall (root root' : RootValue)
         (stats stats' : gmap string (option MergeStats)),
    t ∉ names ->
    snd (loop ctx merger names root stats) = Continue (root', stats') ->
    HasTable root' ctx t = HasTable root ctx t.
Proof using PutTable_other RemoveTables_other.
  induction names as [|n rest IH]; intros root root' stats stats' Hnot.
  - simpl. intros [= <- <-]. reflexivity.
  - apply not_elem_of_cons in Hnot as [Hne Hnot].
    rewrite mergeTables_cons.
    destruct (MergeTable merger ctx n) as [[[tbl|] st]|e];
      [| |discriminate].
    + destruct (PutTable root ctx n tbl) as [r1|e] eqn:Hput;
        [|discriminate]. simpl.
      intros Hrun. rewrite (IH _ _ _ _ Hnot Hrun).
      apply (PutTable_other _ _ _ _ _ t Hput). congruence.
    + destruct (HasTable root ctx n) as [[]|e]; try discriminate.
      destruct (RemoveTables root ctx n) as [r1|e] eqn:Hrm;
        [|discriminate]. simpl.
      intros Hrun. rewrite (IH _ _ _ _ Hnot Hrun).
      apply (RemoveTables_other _ _ _ _ t Hrm). congruence.
Qed.

(** X12: a merge touches the tables of the union only: a table outside the
    union is in the merged root exactly if it is in the root of [cm1]. *)
Theorem MergeCommits_leaves_other_tables (ctx : Context) (ddb : DoltDB)
  (cm1 cm2 : Commit) (merger : Merger) (root1 root2 : RootValue)
  (names : list string) (t : string) (root' : RootValue)
  (stats' : gmap string (option MergeStats)) :
  NewMerger ctx cm1 cm2 (DoltDB_ValueReadWriter ddb) = Ok merger ->
  GetRootValue cm1 = Ok root1 ->
  GetRootValue cm2 = Ok root2 ->
  UnionTableNames ctx root1 root2 = Ok names ->
  t ∉ names ->
  snd (mergeCommits ctx ddb cm1 cm2)
  = Ret (mkMergeResult (Some root') (Some stats') None) ->
  HasTable root' ctx t = HasTable root1 ctx t.
Proof using PutTable_other RemoveTables_other.
  intros Hnm Hr1 Hr2 Hun Hnot Hrun.
  apply (mergeTables_other ctx merger t names root1 root' ∅ stats' Hnot).
  apply (MergeCommits_success_inv _ _ _ _ _ _ _ _ _ _ Hnm Hr1 Hr2 Hun Hrun).
Qed.

(** A table that was put is there. *)
Hypothesis PutTable_same : forall r ctx t tbl r',
  PutTable r ctx t tbl = Ok r' -> HasTable r' ctx t = Ok true.

Lemma mergeTables_keeps_put (ctx : Context) (merger : Merger) (t : string)
  (tbl : Table) (st : option MergeStats) (names : list string) :
  MergeTable merger ctx t = Ok (Some tbl, st) ->
  forall (root root' : RootValue)
         (stats stats' : gmap string (option MergeStats)),
    (t ∈ names \/ (HasTable root ctx t = Ok true /\ stats !! t = Some st)) ->
    snd (loop ctx merger names root stats) = Continue (root', stats') ->
    HasTable root' ctx t = Ok true /\ stats' !! t = Some st.
Proof using PutTable_other RemoveTables_other PutTable_same.
  intros Hmt.
  induction names as [|n rest IH]; intros root root' stats stats' Hin.
  - simpl. intros [= <- <-].
    destruct Hin as [Hin|Hin]; [|exact Hin].
    apply elem_of_nil in Hin. contradiction.
  - rewrite mergeTables_cons.
    destruct (decide (n = t)) as [->|Hne].
    + rewrite Hmt.
      destruct (PutTable root ctx t tbl) as [r1|e] eqn:Hput;
        [|discriminate]. simpl.
      apply IH. right. split.
      * apply (PutTable_same _ _ _ _ _ Hput).
      * apply lookup_insert_eq.
    + assert (t ∈ rest \/ (HasTable root ctx t = Ok true
                           /\ stats !! t = Some st)) as Hin'.
      { destruct Hin as [Hin|Hin]; [|auto].
        apply elem_of_cons in Hin as [E|Hin]; [congruence|auto]. }
      destruct (MergeTable merger ctx n) as [[[tbl'|] st']|e];
        [| |discriminate].
      * destruct (PutTable root ctx n tbl') as [r1|e] eqn:Hput;
          [|discriminate]. simpl.
        apply IH. destruct Hin' as [Hin'|[Hhas Hst]]; [auto|right]. split.
        -- rewrite (PutTable_other _ _ _ _ _ t Hput Hne). exact Hhas.
        -- rewrite lookup_insert_ne by exact Hne. exact Hst.
      * destruct (HasTable root ctx n) as [[]|e]; try discriminate.
        destruct (RemoveTables root ctx n) as [r1|e] eqn:Hrm;
          [|discriminate]. simpl.
        apply IH. destruct Hin' as [Hin'|[Hhas Hst]]; [auto|right]. split.
        -- rewrite (RemoveTables_other _ _ _ _ t Hrm Hne). exact Hhas.
        -- rewrite lookup_insert_ne by exact Hne. exact Hst.
Qed.

(** X13: a table of the union for which [MergeTable] returns a merged table
    is in the root that a merge returns when it runs to its end, and its
    entry in the statistics is the one [MergeTable] returned for it. *)
Theorem MergeCommits_puts_merged_table (ctx : Context) (ddb : DoltDB)
  (cm1 cm2 : Commit) (merger : Merger) (root1 root2 : RootValue)
  (names : list string) (t : string) (tbl : Table) (st : option MergeStats)
  (root' : RootValue) (stats' : gmap string (option MergeStats)) :
  NewMerger ctx cm1 cm2 (DoltDB_ValueReadWriter ddb) = Ok merger ->
  GetRootValue cm1 = Ok root1 ->
  GetRootValue cm2 = Ok root2 ->
  UnionTableNames ctx root1 root2 = Ok names ->
  t ∈ names ->
  MergeTable merger ctx t = Ok (Some tbl, st) ->
  snd (mergeCommits ctx ddb cm1 cm2)
  = Ret (mkMergeResult (Some root') (Some stats') None) ->
  stats' !! t = Some st /\ HasTable root' ctx t = Ok true.
Proof using PutTable_other RemoveTables_other PutTable_same.
  intros Hnm Hr1 Hr2 Hun Hin Hmt Hrun.
  pose proof (MergeCommits_success_inv _ _ _ _ _ _ _ _ _ _
                Hnm Hr1 Hr2 Hun Hrun) as Hloop.
  destruct (mergeTables_keeps_put ctx merger t tbl st names Hmt
              root1 root' ∅ stats' (or_introl Hin) Hloop) as [H1 H2].
  auto.
Qed.

(** ** When a merge runs to its end *)

(** Roots that can always be written. *)
Hypothesis PutTable_returns : forall r ctx n tbl,
  exists r', PutTable r ctx n tbl = Ok r'.
Hypothesis RemoveTables_returns : forall r ctx n,
  exists r', RemoveTables r ctx n = Ok r'.

Lemma mergeTables_runs (ctx : Context) (merger : Merger)
  (names : list string) :
  NoDup names ->
  (forall t, t ∈ names -> exists r, MergeTable merger ctx t = Ok r) ->
  forall (root : RootValue) (stats : gmap string (option MergeStats)),
    (forall t st, t ∈ names -> MergeTable merger ctx t = Ok (None, st) ->
                  HasTable root ctx t = Ok true) ->
    exists root' stats',
      snd (loop ctx merger names root stats) = Continue (root', stats').
Proof using PutTable_other RemoveTables_other PutTable_returns
  RemoveTables_returns.
  induction names as [|n rest IH]; intros Hnd Hmt root stats Hhas.
  - simpl. eauto.
  - apply NoDup_cons in Hnd as [Hn Hnd].
    assert (forall t, t ∈ rest -> exists r, MergeTable merger ctx t = Ok r)
      as Hmt' by (intros t Ht; apply Hmt; right; exact Ht).
    rewrite mergeTables_cons.
    destruct (Hmt n) as [[[tbl|] st] Hr]; [left| |]; rewrite Hr.
    + destruct (PutTable_returns root ctx n tbl) as [r1 Hput].
      rewrite Hput. simpl. apply (IH Hnd Hmt').
      intros t st' Ht Hnone.
      rewrite (PutTable_other _ _ _ _ _ t Hput) by (intros ->; auto).
      apply (Hhas t st'); [right; exact Ht|exact Hnone].
    + rewrite (Hhas n st (list_elem_of_here _ _) Hr).
      destruct (RemoveTables_returns root ctx n) as [r1 Hrm].
      rewrite Hrm. simpl. apply (IH Hnd Hmt').
      intros t st' Ht Hnone.
      rewrite (RemoveTables_other _ _ _ _ t Hrm) by (intros ->; auto).
      apply (Hhas t st'); [right; exact Ht|exact Hnone].
Qed.

(** X14: a merge runs to its end, returning a root and statistics and no
    error, without a panic, when the merger, the roots and the union are
    obtained, the union names no table twice, the merge of each of its
    tables returns, the roots can be written, and each table without a
    merged table is in the root of [cm1]. *)
Theorem MergeCommits_runs_to_its_end (ctx : Context) (ddb : DoltDB)
  (cm1 cm2 : Commit) (merger : Merger) (root1 root2 : RootValue)
  (names : list string) :
  NewMerger ctx cm1 cm2 (DoltDB_ValueReadWriter ddb) = Ok merger ->
  GetRootValue cm1 = Ok root1 ->
  GetRootValue cm2 = Ok root2 ->
  UnionTableNames ctx root1 root2 = Ok names ->
  NoDup names ->
  (forall t, t ∈ names -> exists r, MergeTable merger ctx t = Ok r) ->
  (forall t st, t ∈ names -> MergeTable merger ctx t = Ok (None, st) ->
                HasTable root1 ctx t = Ok true) ->
  exists root' stats',
    snd (mergeCommits ctx ddb cm1 cm2)
    = Ret (mkMergeResult (Some root') (Some stats') None).
Proof using PutTable_other RemoveTables_other PutTable_returns
  RemoveTables_returns.
  intros Hnm Hr1 Hr2 Hun Hnd Hmt Hhas.
  rewrite (MergeCommits_loop _ _ _ _ _ _ _ _ Hnm Hr1 Hr2 Hun). cbn [snd].
  destruct (mergeTables_runs ctx merger names Hnd Hmt root1 ∅ Hhas)
    as (root' & stats' & ->).
  eauto.
Qed.

End MergeExtras.

(** * Properties of the listings of conflicts *)

Section ConflictFacts.

Variable Context : Type.
Variable DoltEnv : Type.
Variable RootValue : Type.
Variable DocDetails : Type.
Variable DocDiffs : Type.
Variable Error : Type.

Variable HeadRoot : DoltEnv -> Context -> result Error RootValue.
Variable StagedRoot : DoltEnv -> Context -> result Error RootValue.
Variable WorkingRoot : DoltEnv -> Context -> result Error RootValue.
Variable TablesInConflict :
  RootValue -> Context -> result Error (option (list string)).
Variable GetAllValidDocDetails : DoltEnv -> result Error DocDetails.
Variable NewDocDiffs :
  Context -> DoltEnv -> option RootValue -> option RootValue -> DocDetails ->
  option DocDiffs * option Error.

Local Abbreviation tablesInConflict :=
  (GetTablesInConflict HeadRoot StagedRoot WorkingRoot TablesInConflict).
Local Abbreviation docsInConflict :=
  (GetDocsInConflict WorkingRoot GetAllValidDocDetails NewDocDiffs).

(** X15: [GetTablesInConflict] returns either an error and three nil
    lists, or no error and, in the order working, staged, head, the tables
    in conflict of the working, the staged and the head root of the
    environment. *)
Theorem GetTablesInConflict_all_or_nothing (ctx : Context) (dEnv : DoltEnv) :
  let res := snd (tablesInConflict ctx dEnv) in
  (err res <> None /\
   workingInConflict res = None /\ stagedInConflict res = None
   /\ headInConflict res = None)
  \/ (err res = None /\
      exists headRoot stagedRoot workingRoot,
        HeadRoot dEnv ctx = Ok headRoot
        /\ StagedRoot dEnv ctx = Ok stagedRoot
        /\ WorkingRoot dEnv ctx = Ok workingRoot
        /\ TablesInConflict workingRoot ctx = Ok (workingInConflict res)
        /\ TablesInConflict stagedRoot ctx = Ok (stagedInConflict res)
        /\ TablesInConflict headRoot ctx = Ok (headInConflict res)).
Proof.
  unfold GetTablesInConflict, try_call.
  destruct (HeadRoot dEnv ctx) as [h|e] eqn:Hh;
    [|left; repeat split; discriminate].
  destruct (StagedRoot dEnv ctx) as [s|e] eqn:Hs;
    [|left; repeat split; discriminate].
  destruct (WorkingRoot dEnv ctx) as [w|e] eqn:Hw;
    [|left; repeat split; discriminate].
  destruct (TablesInConflict h ctx) as [th|e] eqn:Hth;
    [|left; repeat split; discriminate].
  destruct (TablesInConflict s ctx) as [ts|e] eqn:Hts;
    [|left; repeat split; discriminate].
  destruct (TablesInConflict w ctx) as [tw|e] eqn:Htw;
    [|left; repeat split; discriminate].
  right. split; [reflexivity|]. exists h, s, w. auto 10.
Qed.


(** X17: [GetDocsInConflict] calls [NewDocDiffs] only once the details of
    the documents and the working root are both there, on the working root
    as the older root and no newer root, and returns what that call
    returns as it is; where one of the two is missing it returns that
    error with a nil pointer, and where the details are missing it does
    not read the working root. *)
Theorem GetDocsInConflict_calls_NewDocDiffs_last (ctx : Context)
  (dEnv : DoltEnv) :
  (exists docDetails workingRoot,
     GetAllValidDocDetails dEnv = Ok docDetails
     /\ WorkingRoot dEnv ctx = Ok workingRoot
     /\ docsInConflict ctx dEnv
        = ([CallGetAllValidDocDetails; CallRoot Working; CallNewDocDiffs],
           NewDocDiffs ctx dEnv (Some workingRoot) None docDetails))
  \/ (exists e,
        snd (docsInConflict ctx dEnv) = (None, Some e)
        /\ ~ (CallNewDocDiffs ∈ fst (docsInConflict ctx dEnv))
        /\ ((GetAllValidDocDetails dEnv = Err e
             /\ fst (docsInConflict ctx dEnv) = [CallGetAllValidDocDetails])
            \/ (WorkingRoot dEnv ctx = Err e
                /\ fst (docsInConflict ctx dEnv)
                   = [CallGetAllValidDocDetails; CallRoot Working]))).
Proof.
  unfold GetDocsInConflict, try_call.
  destruct (GetAllValidDocDetails dEnv) as [d|e].
  - destruct (WorkingRoot dEnv ctx) as [w|e].
    + left. exists d, w. split; [reflexivity|]. split; reflexivity.
    + right. exists e. simpl. split; [reflexivity|]. split; [|auto].
      rewrite !elem_of_cons, elem_of_nil. intros [H|[H|[]]]; discriminate.
  - right. exists e. simpl. split; [reflexivity|]. split; [|auto].
    rewrite elem_of_cons, elem_of_nil. intros [H|[]]. discriminate.
Qed.

End ConflictFacts.

(** * The further properties at work on the samples *)

Lemma Sample_Equals_refl (f : unit) (x : Z) : Sample.Z_Equals f x x = true.
Proof. apply Z.eqb_refl. Qed.

Lemma Sample_PutTable_same (r : Sample.Root) (ctx : unit) (t : string)
  (tbl : Z) (r' : Sample.Root) :
  Sample.PutTable r ctx t tbl = Ok r' -> Sample.HasTable r' ctx t = Ok true.
Proof.
  intros [= <-]. unfold Sample.HasTable. rewrite lookup_insert_eq.
  reflexivity.
Qed.

Lemma Sample_PutTable_returns (r : Sample.Root) (ctx : unit) (n : string)
  (tbl : Z) : exists r', Sample.PutTable r ctx n tbl = Ok r'.
Proof. eexists. reflexivity. Qed.

Lemma Sample_RemoveTables_returns (r : Sample.Root) (ctx : unit)
  (n : string) : exists r', Sample.RemoveTables r ctx n = Ok r'.
Proof. eexists. reflexivity. Qed.

(** The run of the sample merge of tables a and t. *)
Lemma Sample_merge_a_t :
  snd (Sample.merge ["a"; "t"] Sample.MergeTable_t_removed)
  = Ret (mkMergeResult (Some ({[ "a" := 7 ]} : Sample.Root))
           (Some (<["t" := Some (MergeStats_of_Operation TableRemoved)]>
                    (<["a" := Some (mkMergeStats TableModified 0 0 1 0)]>
                       ∅)))
           None).
Proof. vm_compute. reflexivity. Qed.

(** X1 at work: a nil part behind a field. *)
Lemma pathIsLess_panics_only_on_nil_part_witness :
  pathIsLess Sample.Z_Equals Sample.Z_Less tt
    [Sample.field "a"; PNil] [Sample.field "a"; Sample.field "b"]
  = Panic "unreachable"
  /\ exists pp : PathPart Z,
       (pp ∈ [Sample.field "a"; PNil]
        \/ pp ∈ [Sample.field "a"; Sample.field "b"])
       /\ is_variant pp = false.
Proof.
  split; [reflexivity|].
  apply (pathIsLess_panics_only_on_nil_part unit Z Sample.Z_Equals
           Sample.Z_Less tt [Sample.field "a"; PNil]
           [Sample.field "a"; Sample.field "b"] "unreachable").
  reflexivity.
Defined.

(** X3 at work: a path through a field and an index. *)
Lemma pathIsLess_irreflexive_witness :
  let p := [Sample.field "a"; PIndex (mkIndexPath 3 true)] in
  (forall f x, Sample.Z_Equals f x x = true)
  /\ Forall (fun pp : PathPart Z => is_variant pp = true) p
  /\ pathIsLess Sample.Z_Equals Sample.Z_Less tt p p = Ret false.
Proof.
  split; [exact Sample_Equals_refl|].
  split; [repeat constructor|].
  apply (pathIsLess_irreflexive unit Z Sample.Z_Equals Sample.Z_Less
           Sample_Equals_refl tt
           [Sample.field "a"; PIndex (mkIndexPath 3 true)]).
  repeat constructor.
Defined.

(** X4 at work: the first and the last of three differences. *)
Lemma PatchSort_Swap_exchanges_witness :
  let ps : PatchSort unit Z :=
    mkPatchSort [Sample.add_4; Sample.rem_1; Sample.mod_3] tt in
  (0 < PatchSort_Len ps)%nat /\ (2 < PatchSort_Len ps)%nat
  /\ exists ps',
       PatchSort_Swap ps 0 2 = Ret ps'
       /\ patch ps' ≡ₚ patch ps
       /\ PatchSort_Swap ps' 0 2 = Ret ps.
Proof.
  split; [unfold PatchSort_Len; simpl; lia|].
  split; [unfold PatchSort_Len; simpl; lia|].
  destruct (PatchSort_Swap_exchanges unit Z
              (mkPatchSort [Sample.add_4; Sample.rem_1; Sample.mod_3] tt)
              0 2)
    as (ps' & Hswap & _ & _ & _ & _ & _ & Hperm & Hback);
    [unfold PatchSort_Len; simpl; lia|unfold PatchSort_Len; simpl; lia|].
  exists ps'. auto.
Defined.

(** X5 at work: on a patch of three differences, [Less] on -1 and 0 and
    [Swap] on 0 and 3 panic with an index out of range. *)
Lemma PatchSort_index_out_of_range_witness :
  let ps : PatchSort unit Z :=
    mkPatchSort [Sample.add_4; Sample.rem_1; Sample.mod_3] tt in
  PatchSort_Less_int Sample.Z_Equals Sample.Z_Less Sample.Path_same ps (-1) 0
  = Panic "index out of range"
  /\ PatchSort_Swap_int ps 0 3 = Panic "index out of range".
Proof.
  split.
  - apply (PatchSort_index_out_of_range unit Z Sample.Z_Equals Sample.Z_Less
             Sample.Path_same
             (mkPatchSort [Sample.add_4; Sample.rem_1; Sample.mod_3] tt)
             (-1) 0).
    left. lia.
  - apply (PatchSort_index_out_of_range unit Z Sample.Z_Equals Sample.Z_Less
             Sample.Path_same
             (mkPatchSort [Sample.add_4; Sample.rem_1; Sample.mod_3] tt)
             0 3).
    right. right. right. unfold PatchSort_Len. simpl. lia.
Defined.

(** X6 at work: the sort of two differences. *)
Lemma insertionSort_permutes_witness :
  let data : PatchSort unit Z :=
    mkPatchSort [Sample.mod_3; Sample.rem_1] tt in
  let data' : PatchSort unit Z :=
    mkPatchSort [Sample.rem_1; Sample.mod_3] tt in
  insertionSort
    (H := PatchSort_sort_Interface unit Z Sample.Z_Equals Sample.Z_Less
            Sample.Path_same) data 0 2 = Ret data'
  /\ patch data' ≡ₚ patch data.
Proof.
  split; [reflexivity|].
  apply (insertionSort_permutes unit Z Sample.Z_Equals Sample.Z_Less
           Sample.Path_same
           (mkPatchSort [Sample.mod_3; Sample.rem_1] tt)
           (mkPatchSort [Sample.rem_1; Sample.mod_3] tt) 0 2).
  reflexivity.
Defined.

(** X7 at work: the removal of field a is before the addition of its field
    b, which stands first in the patch. *)
Lemma Less_parent_before_child_witness :
  let ps : PatchSort unit Z :=
    mkPatchSort [Sample.add_b; Sample.rem_1] tt in
  (DPath Sample.add_b = DPath Sample.rem_1 ++ [Sample.field "b"]
   /\ Forall (fun pp : PathPart Z => is_variant pp = true)
        (DPath Sample.rem_1))
  /\ PatchSort_Less Sample.Z_Equals Sample.Z_Less Sample.Path_same ps 1 0
     = Ret true
  /\ PatchSort_Less Sample.Z_Equals Sample.Z_Less Sample.Path_same ps 0 1
     = Ret false.
Proof.
  split; [split; [reflexivity|repeat constructor]|].
  apply (Less_parent_before_child unit Z Sample.Z_Equals Sample.Z_Less
           Sample.Path_same Sample_Equals_refl Sample_Path_same_exact
           (mkPatchSort [Sample.add_b; Sample.rem_1] tt) 1 0
           Sample.rem_1 Sample.add_b [Sample.field "b"]);
    [reflexivity|reflexivity|reflexivity|discriminate|repeat constructor].
Defined.

(** X8 at work: two paths to index 1, neither less than the other. *)
Lemma pathIsLess_neither_iff_parts_equal_witness :
  let p : Path Z := [Sample.field "a"; PIndex (mkIndexPath 1 true)] in
  (pathIsLess Sample.Z_Equals Sample.Z_Less tt p p = Ret false
   /\ pathIsLess Sample.Z_Equals Sample.Z_Less tt p p = Ret false)
  /\ Forall2
       (fun a b =>
          pathPartCompare Sample.Z_Equals Sample.Z_Less tt a b = Ret 0)
       p p.
Proof.
  split; [split; reflexivity|].
  apply (pathIsLess_neither_iff_parts_equal unit Z Sample.Z_Equals
           Sample.Z_Less Sample_Equals_sym Sample_Equals_trans
           Sample_Less_total Sample_Less_trans Sample_Less_compat tt).
  split; reflexivity.
Defined.

(** X9 at work: the four sample differences at one field and below it. *)
Lemma PatchSort_Less_strict_order_witness :
  let ps : PatchSort unit Z :=
    mkPatchSort [Sample.add_b; Sample.add_4; Sample.mod_3; Sample.rem_1] tt
  in
  (forall d, d ∈ patch ps ->
     Forall (fun pp : PathPart Z => is_variant pp = true) (DPath d))
  /\ (forall i, (i < 4)%nat ->
        PatchSort_Less Sample.Z_Equals Sample.Z_Less Sample.Path_same ps i i
        = Ret false).
Proof.
  assert (forall d,
            d ∈ [Sample.add_b; Sample.add_4; Sample.mod_3; Sample.rem_1] ->
            Forall (fun pp : PathPart Z => is_variant pp = true) (DPath d))
    as Hvar.
  { intros d Hd.
    repeat (apply elem_of_cons in Hd as [->|Hd]);
      try (apply elem_of_nil in Hd; contradiction);
      repeat constructor. }
  split; [exact Hvar|].
  apply (PatchSort_Less_strict_order unit Z Sample.Z_Equals Sample.Z_Less
           Sample.Path_same Sample_Path_same_exact
           Sample_Equals_sym Sample_Equals_trans Sample_Less_total
           Sample_Less_trans Sample_Less_compat
           (mkPatchSort
              [Sample.add_b; Sample.add_4; Sample.mod_3; Sample.rem_1] tt)
           Hvar).
Defined.

(** X10 at work: the statistics of the merge of tables a and t name a and
    t and no table u, and the entry of t, for which the merge returned no
    table, holds the operation [TableRemoved]. *)
Lemma MergeCommits_stats_cover_union_witness :
  let stats' : gmap string (option MergeStats) :=
    <["t" := Some (mkMergeStats TableRemoved 0 0 0 0)]>
      (<["a" := Some (mkMergeStats TableModified 0 0 1 0)]> ∅) in
  snd (Sample.merge ["a"; "t"] Sample.MergeTable_t_removed)
  = Ret (mkMergeResult (Some ({[ "a" := 7 ]} : Sample.Root)) (Some stats')
           None)
  /\ (is_Some (stats' !! "t") <-> "t" ∈ ["a"; "t"])
  /\ (is_Some (stats' !! "u") <-> "u" ∈ ["a"; "t"])
  /\ ((exists tbl,
         Sample.MergeTable_t_removed tt tt "t"
         = Ok (Some tbl, Some (mkMergeStats TableRemoved 0 0 0 0)))
      \/ ((exists s : MergeStats,
             Some (mkMergeStats TableRemoved 0 0 0 0) = Some s
             /\ Operation s = TableRemoved
             /\ Adds s = 0 /\ Deletes s = 0 /\ Modifications s = 0
             /\ Conflicts s = 0)
          /\ exists st,
               Sample.MergeTable_t_removed tt tt "t" = Ok (None, st))).
Proof.
  split; [exact Sample_merge_a_t|].
  destruct (MergeCommits_stats_cover_union unit unit Sample.Root unit unit
              Sample.Root Z string
              (fun _ : unit => tt) Sample.NewMerger Sample.GetRootValue
              (Sample.UnionTableNames ["a"; "t"])
              Sample.MergeTable_t_removed
              Sample.PutTable Sample.HasTable Sample.RemoveTables
              tt tt Sample.cm1 Sample.cm2 tt Sample.cm1 Sample.cm2
              ["a"; "t"] _ _ eq_refl eq_refl eq_refl eq_refl
              Sample_merge_a_t) as [Hdom Hval].
  split; [apply Hdom|]. split; [apply Hdom|].
  apply (Hval "t"). vm_compute. reflexivity.
Defined.

(** X11 at work: the merge that fails on table b has called [MergeTable]
    for a and for b, and the merge of a and t for both. *)
Lemma MergeCommits_merges_tables_in_order_witness :
  MergeTable_calls (fst (Sample.merge ["a"; "b"] Sample.MergeTable_a_only))
    `prefix_of` ["a"; "b"]
  /\ MergeTable_calls
       (fst (Sample.merge ["a"; "t"] Sample.MergeTable_t_removed))
     = ["a"; "t"].
Proof.
  split.
  - apply (MergeCommits_merges_tables_in_order unit unit Sample.Root unit
             unit Sample.Root Z string
             (fun _ : unit => tt) Sample.NewMerger Sample.GetRootValue
             (Sample.UnionTableNames ["a"; "b"]) Sample.MergeTable_a_only
             Sample.PutTable Sample.HasTable Sample.RemoveTables
             tt tt Sample.cm1 Sample.cm2 Sample.cm1 Sample.cm2 ["a"; "b"]
             eq_refl eq_refl eq_refl).
  - destruct (MergeCommits_merges_tables_in_order unit unit Sample.Root
                unit unit Sample.Root Z string
                (fun _ : unit => tt) Sample.NewMerger Sample.GetRootValue
                (Sample.UnionTableNames ["a"; "t"])
                Sample.MergeTable_t_removed
                Sample.PutTable Sample.HasTable Sample.RemoveTables
                tt tt Sample.cm1 Sample.cm2 Sample.cm1 Sample.cm2
                ["a"; "t"] eq_refl eq_refl eq_refl) as [_ Hall].
    apply (Hall _ Sample_merge_a_t). reflexivity.
Defined.

(** X12 at work: table u is in neither commit and not in the merged
    root. *)
Lemma MergeCommits_leaves_other_tables_witness :
  snd (Sample.merge ["a"; "t"] Sample.MergeTable_t_removed)
  = Ret (mkMergeResult (Some ({[ "a" := 7 ]} : Sample.Root))
           (Some (<["t" := Some (MergeStats_of_Operation TableRemoved)]>
                    (<["a" := Some (mkMergeStats TableModified 0 0 1 0)]>
                       ∅)))
           None)
  /\ ~ ("u" ∈ ["a"; "t"])
  /\ Sample.HasTable ({[ "a" := 7 ]} : Sample.Root) tt "u"
     = Sample.HasTable Sample.cm1 tt "u".
Proof.
  split; [exact Sample_merge_a_t|].
  assert (~ ("u" ∈ ["a"; "t"])) as Hnot.
  { rewrite !elem_of_cons, elem_of_nil. intros [H|[H|[]]]; discriminate. }
  split; [exact Hnot|].
  apply (MergeCommits_leaves_other_tables unit unit Sample.Root unit unit
           Sample.Root Z string
           (fun _ : unit => tt) Sample.NewMerger Sample.GetRootValue
           (Sample.UnionTableNames ["a"; "t"]) Sample.MergeTable_t_removed
           Sample.PutTable Sample.HasTable Sample.RemoveTables
           Sample_PutTable_other Sample_RemoveTables_other
           tt tt Sample.cm1 Sample.cm2 tt Sample.cm1 Sample.cm2
           ["a"; "t"] "u" _ _ eq_refl eq_refl eq_refl eq_refl Hnot
           Sample_merge_a_t).
Defined.

(** X13 at work: table a is merged; the merged root has it, with the
    statistics of its merge. *)
Lemma MergeCommits_puts_merged_table_witness :
  let stats' : gmap string (option MergeStats) :=
    <["t" := Some (MergeStats_of_Operation TableRemoved)]>
      (<["a" := Some (mkMergeStats TableModified 0 0 1 0)]> ∅) in
  (Sample.MergeTable_t_removed tt tt "a"
   = Ok (Some 7, Some (mkMergeStats TableModified 0 0 1 0))
   /\ snd (Sample.merge ["a"; "t"] Sample.MergeTable_t_removed)
      = Ret (mkMergeResult (Some ({[ "a" := 7 ]} : Sample.Root))
               (Some stats') None))
  /\ stats' !! "a" = Some (Some (mkMergeStats TableModified 0 0 1 0))
  /\ Sample.HasTable ({[ "a" := 7 ]} : Sample.Root) tt "a" = Ok true.
Proof.
  split; [split; [reflexivity|exact Sample_merge_a_t]|].
  apply (MergeCommits_puts_merged_table unit unit Sample.Root unit unit
           Sample.Root Z string
           (fun _ : unit => tt) Sample.NewMerger Sample.GetRootValue
           (Sample.UnionTableNames ["a"; "t"]) Sample.MergeTable_t_removed
           Sample.PutTable Sample.HasTable Sample.RemoveTables
           Sample_PutTable_other Sample_RemoveTables_other
           Sample_PutTable_same
           tt tt Sample.cm1 Sample.cm2 tt Sample.cm1 Sample.cm2
           ["a"; "t"] "a" 7 _ _ _ eq_refl eq_refl eq_refl eq_refl
           (list_elem_of_here _ _) eq_refl Sample_merge_a_t).
Defined.

(** X14 at work: tables a and t of the first commit, a merged and t
    removed. *)
Lemma MergeCommits_runs_to_its_end_witness :
  (NoDup ["a"; "t"]
   /\ (forall t, t ∈ ["a"; "t"] ->
         exists r, Sample.MergeTable_t_removed tt tt t = Ok r)
   /\ (forall t st, t ∈ ["a"; "t"] ->
         Sample.MergeTable_t_removed tt tt t = Ok (None, st) ->
         Sample.HasTable Sample.cm1 tt t = Ok true))
  /\ exists root' stats',
       snd (Sample.merge ["a"; "t"] Sample.MergeTable_t_removed)
       = Ret (mkMergeResult (Some root') (Some stats') None).
Proof.
  assert (NoDup ["a"; "t"]) as Hnd.
  { repeat constructor; rewrite ?elem_of_cons, ?elem_of_nil;
      intros H; repeat destruct H as [H|H]; (discriminate || contradiction). }
  assert (forall t, t ∈ ["a"; "t"] ->
            exists r, Sample.MergeTable_t_removed tt tt t = Ok r) as Hmt.
  { intros t Ht.
    repeat (apply elem_of_cons in Ht as [->|Ht]);
      try (apply elem_of_nil in Ht; contradiction);
      eexists; reflexivity. }
  assert (forall t st, t ∈ ["a"; "t"] ->
            Sample.MergeTable_t_removed tt tt t = Ok (None, st) ->
            Sample.HasTable Sample.cm1 tt t = Ok true) as Hhas.
  { intros t st Ht.
    repeat (apply elem_of_cons in Ht as [->|Ht]);
      try (apply elem_of_nil in Ht; contradiction);
      intros H; (discriminate H || reflexivity). }
  split; [auto|].
  apply (MergeCommits_runs_to_its_end unit unit Sample.Root unit unit
           Sample.Root Z string
           (fun _ : unit => tt) Sample.NewMerger Sample.GetRootValue
           (Sample.UnionTableNames ["a"; "t"]) Sample.MergeTable_t_removed
           Sample.PutTable Sample.HasTable Sample.RemoveTables
           Sample_PutTable_other Sample_RemoveTables_other
           Sample_PutTable_returns Sample_RemoveTables_returns
           tt tt Sample.cm1 Sample.cm2 tt Sample.cm1 Sample.cm2
           ["a"; "t"] eq_refl eq_refl eq_refl eq_refl Hnd Hmt Hhas).
Defined.

(** X18 at work: in the merge of tables a and t, the sixth call puts table
    a, after the fifth has merged it. *)
Lemma MergeCommits_writes_after_merge_witness :
  let calls := fst (Sample.merge ["a"; "t"] Sample.MergeTable_t_removed) in
  calls !! 5%nat = Some (CallPutTable "a")
  /\ (exists j, (j < 5)%nat /\ calls !! j = Some (CallMergeTable "a"))
  /\ exists tbl st, Sample.MergeTable_t_removed tt tt "a" = Ok (Some tbl, st).
Proof.
  split; [reflexivity|].
  apply (MergeCommits_writes_after_merge unit unit Sample.Root unit unit
           Sample.Root Z string
           (fun _ : unit => tt) Sample.NewMerger Sample.GetRootValue
           (Sample.UnionTableNames ["a"; "t"]) Sample.MergeTable_t_removed
           Sample.PutTable Sample.HasTable Sample.RemoveTables
           tt tt Sample.cm1 Sample.cm2 tt 5 "a" eq_refl).
  reflexivity.
Defined.

(** X15 at work: the staged root of the environment cannot be listed; the
    error comes back with three nil lists. *)
Lemma GetTablesInConflict_all_or_nothing_witness :
  let res := snd (SampleEnv.conflicts SampleEnv.bad_staged) in
  err res = Some "unreadable"
  /\ workingInConflict res = None /\ stagedInConflict res = None
  /\ headInConflict res = None.
Proof.
  split; [reflexivity|].
  destruct (GetTablesInConflict_all_or_nothing unit SampleEnv.Env
              (list string) string
              SampleEnv.HeadRoot SampleEnv.StagedRoot SampleEnv.WorkingRoot
              SampleEnv.TablesInConflict tt SampleEnv.bad_staged)
    as [[_ H]|[H _]]; [exact H|discriminate H].
Defined.


(** X17 at work: with a working root of one table, the differences of the
    two documents are those [NewDocDiffs] makes of that root. *)
Lemma GetDocsInConflict_calls_NewDocDiffs_last_witness :
  SampleEnv.docs SampleEnv.no_staged
  = ([CallGetAllValidDocDetails; CallRoot Working; CallNewDocDiffs],
     SampleEnv.NewDocDiffs tt SampleEnv.no_staged (Some ["t"]) None
       ["LICENSE.md"; "README.md"]).
Proof.
  destruct (GetDocsInConflict_calls_NewDocDiffs_last unit SampleEnv.Env
              (list string) (list string) (list (string * nat)) string
              SampleEnv.WorkingRoot SampleEnv.GetAllValidDocDetails
              SampleEnv.NewDocDiffs tt SampleEnv.no_staged)
    as [(d & w & [= <-] & [= <-] & Hrun)|(e & H & _)].
  - exact Hrun.
  - discriminate H.
Defined.
